(** * A shallow embedding of the QueryClient of
      src/content/posts/building-a-poor-mans-react-query-from-scratch/index.md

    The post develops a small data-fetching cache in TypeScript: a class
    [QueryClient] with three private maps ([queries], [queryFns],
    [listeners]) and the methods [getQueryState], [subscribe], [notify],
    [setQueryState], [fetchQuery] and [invalidateQuery].

    Modelling choices.
    - The three maps are [gmap string _]; a JavaScript [Set] of listeners is
      a duplicate-free list in insertion order.
    - [fetchQuery] is an [async] method.  Its body runs synchronously up to
      [await queryFn()]; the rest runs when the promise returned by
      [queryFn()] settles.  The embedding splits it accordingly into
      [fetchQuery] (the synchronous part, which allocates the promise that
      the async method returns) and [resumeFetch] (the continuation).  The
      local variables alive across the [await] are kept in a [Frame].
    - An exception is an [option JsValue] returned next to the new state.
    - [Date.now()] is an argument of the operations that read the clock.
    - A listener is either a callback passed to [subscribe] by a user of the
      class, described by what a call of it does for the client (it returns
      or it throws), or the closure that [fetchQuery] itself subscribes on
      its deduplication path.  A user callback that calls back into the
      client is outside this model.
    - A fetch function is an identifier; it is typed [() => Promise<T>] and
      the environment decides later how its promise settles.  A fetch
      function that throws before it returns a promise is outside this
      model.
    - [trace] is ghost state: it records the calls that the claims count. *)

From Stdlib Require Import ZArith String List Lia DecimalString.
From stdpp Require Import base option list gmap strings.

Set Warnings "-clear-no-such-hyp".

Local Open Scope string_scope.
Local Open Scope list_scope.

(** ** JavaScript values *)

(** An [Error] object, as far as the client looks at it. *)
Record Error := mkError { message : string }.

(** [Number.MAX_SAFE_INTEGER] *)
Definition MAX_SAFE_INTEGER : Z := 9007199254740991.

(** The numbers of this model are the safe integers: each of them is a
    JavaScript number, and [String] prints it as its decimal digits.  Other
    numbers (fractions, integers that [String] rounds or prints with an
    exponent, [NaN], the infinities) are outside the model. *)
Definition SafeInteger : Type :=
  { n : Z | Is_true (Z.abs n <=? MAX_SAFE_INTEGER)%Z }.

Inductive JsValue :=
| JUndefined
| JNull
| JBool (b : bool)
| JNumber (n : SafeInteger)
| JStr (s : string)
| JError (e : Error).

(** A number literal; it is accepted only when it is a safe integer. *)
Notation "'JNum' n" := (JNumber (exist _ n%Z I)) (at level 10, n at level 9).

(** [String(v)] *)
Definition String_ (v : JsValue) : string :=
  match v with
  | JUndefined => "undefined"
  | JNull => "null"
  | JBool true => "true"
  | JBool false => "false"
  | JNumber n => NilZero.string_of_int (Z.to_int (`n))
  | JStr s => s
  | JError e => if decide (message e = "") then "Error" else String.append "Error: " (message e)
  end.

(** [error instanceof Error ? error : new Error(String(error))] *)
Definition normalizeError (thrown : JsValue) : Error :=
  match thrown with
  | JError e => e
  | _ => mkError (String_ thrown)
  end.

(** [x ?? undefined] *)
Definition nullish_undefined (x : JsValue) : JsValue :=
  match x with
  | JNull | JUndefined => JUndefined
  | _ => x
  end.

(** [n || 0] on a number *)
Definition or_zero (n : Z) : Z := if (n =? 0)%Z then 0%Z else n.

(** ** The data model (lines 69-77 and 95-106) *)

Module Status.
Inductive t := idle | loading | success | error.
End Status.
Abbreviation QueryStatus := Status.t.

Record QueryState := mkQueryState {
  data : JsValue;
  status : QueryStatus;
  error : option Error;
  lastFetchedAt : Z;
  staleTime : Z;
}.

(** Identity of a fetch function. *)
Definition Fn := nat.

Inductive ListenerBody :=
| Returns
| Throws (v : JsValue).

Inductive Listener :=
| Callback (id : nat) (body : ListenerBody)
| DedupWaiter (key : string) (promise : nat).

Inductive PromiseState :=
| Pending
| Fulfilled (v : JsValue)
| Rejected (v : JsValue).

(** How the promise returned by [queryFn()] settles. *)
Inductive Settlement :=
| Resolves (v : JsValue)
| Rejects (thrown : JsValue).

(** The locals of [fetchQuery] that are alive across [await queryFn()]. *)
Record Frame := mkFrame {
  f_key : string;
  f_queryFn : Fn;
  f_existingQuery : option QueryState;
  f_staleTime : Z;
}.

Inductive Event :=
| EvSet (key : string) (state : QueryState)
| EvNotify (key : string)
| EvCall (listener : Listener)
| EvFetch (key : string) (queryFn : Fn).

(** The three private fields of the class, then the run-time system. *)
Record World := mkWorld {
  queries : gmap string QueryState;
  queryFns : gmap string Fn;
  listeners : gmap string (list Listener);
  promises : list PromiseState;
  awaiting : gmap nat Frame;
  trace : list Event;
}.

#[global] Instance Error_eq_dec : EqDecision Error.
Proof. solve_decision. Defined.
#[global] Instance SafeInteger_eq_dec : EqDecision SafeInteger.
Proof.
  intros a b. destruct (decide (`a = `b)) as [H|H]; [left|right].
  - by apply (sig_eq_pi _).
  - by intros ->.
Defined.
#[global] Instance JsValue_eq_dec : EqDecision JsValue.
Proof. solve_decision. Defined.
#[global] Instance QueryStatus_eq_dec : EqDecision QueryStatus.
Proof. solve_decision. Defined.
#[global] Instance QueryState_eq_dec : EqDecision QueryState.
Proof. solve_decision. Defined.
#[global] Instance ListenerBody_eq_dec : EqDecision ListenerBody.
Proof. solve_decision. Defined.
#[global] Instance Listener_eq_dec : EqDecision Listener.
Proof. solve_decision. Defined.
#[global] Instance PromiseState_eq_dec : EqDecision PromiseState.
Proof. solve_decision. Defined.
#[global] Instance Event_eq_dec : EqDecision Event.
Proof. solve_decision. Defined.

(** [new QueryClient()] *)
Definition newClient : World :=
  mkWorld ∅ ∅ ∅ [] ∅ [].

Definition with_queries (m : gmap string QueryState) (w : World) : World :=
  mkWorld m (queryFns w) (listeners w) (promises w) (awaiting w) (trace w).
Definition with_queryFns (m : gmap string Fn) (w : World) : World :=
  mkWorld (queries w) m (listeners w) (promises w) (awaiting w) (trace w).
Definition with_listeners (m : gmap string (list Listener)) (w : World) : World :=
  mkWorld (queries w) (queryFns w) m (promises w) (awaiting w) (trace w).
Definition with_promises (ps : list PromiseState) (w : World) : World :=
  mkWorld (queries w) (queryFns w) (listeners w) ps (awaiting w) (trace w).
Definition with_awaiting (m : gmap nat Frame) (w : World) : World :=
  mkWorld (queries w) (queryFns w) (listeners w) (promises w) m (trace w).
Definition record (e : Event) (w : World) : World :=
  mkWorld (queries w) (queryFns w) (listeners w) (promises w) (awaiting w)
          (trace w ++ [e]).

(** ** Promises *)

(** Settling a promise that is already settled does nothing. *)
Definition settle (p : nat) (s : PromiseState) (w : World) : World :=
  match promises w !! p with
  | Some Pending => with_promises (<[p := s]> (promises w)) w
  | _ => w
  end.

Definition resolve (p : nat) (v : JsValue) : World → World := settle p (Fulfilled v).
Definition reject (p : nat) (v : JsValue) : World → World := settle p (Rejected v).

(** ** Sets of listeners *)

(** [Set.prototype.add]: insertion order, no duplicates. *)
Definition set_add (l : Listener) (ls : list Listener) : list Listener :=
  if decide (l ∈ ls) then ls else ls ++ [l].

(** [Set.prototype.delete] *)
Definition set_delete (l : Listener) (ls : list Listener) : list Listener :=
  filter (λ x, x ≠ l) ls.

(** ** The methods *)

(** [getQueryState] (lines 108-110) *)
Definition getQueryState (key : string) (w : World) : option QueryState :=
  queries w !! key.

(** The function returned by [subscribe] (lines 137-145). *)
Definition unsubscribe (key : string) (listener : Listener) (w : World) : World :=
  match listeners w !! key with
  | Some ls =>
      let ls' := set_delete listener ls in
      if (length ls' =? 0)%nat
      then with_listeners (delete key (listeners w)) w
      else with_listeners (<[key := ls']> (listeners w)) w
  | None => w
  end.

(** [subscribe] (lines 130-146) *)
Definition subscribe (key : string) (listener : Listener) (w : World)
  : World * (World → World) :=
  let m := match listeners w !! key with
           | Some _ => listeners w
           | None => <[key := []]> (listeners w)
           end in
  let m := <[key := set_add listener (default [] (m !! key))]> m in
  (with_listeners m w, unsubscribe key listener).

(** What a [reject(state.error)] passes on. *)
Definition error_value (e : option Error) : JsValue :=
  match e with
  | Some e => JError e
  | None => JNull
  end.

(** One call [listener()].  For [DedupWaiter key p] this is the arrow
    function of lines 205-215, whose [resolve]/[reject] belong to the
    promise [p]. *)
Definition callListener (l : Listener) (w : World) : World * option JsValue :=
  let w := record (EvCall l) w in
  match l with
  | Callback _ Returns => (w, None)
  | Callback _ (Throws v) => (w, Some v)
  | DedupWaiter key p =>
      match queries w !! key with
      | Some state =>
          if decide (status state ≠ Status.loading) then
            let w := unsubscribe key l w in
            if decide (status state = Status.success) then
              (resolve p (data state) w, None)
            else if decide (status state = Status.error) then
              (reject p (error_value (error state)) w, None)
            else (w, None)
          else (w, None)
      | None => (w, None)
      end
  end.

(** [listeners.forEach((listener) => listener())].  No listener of this
    model adds to the set or deletes another listener than itself, so the
    elements visited are those present when the loop starts. *)
Fixpoint forEach (ls : list Listener) (w : World) : World * option JsValue :=
  match ls with
  | [] => (w, None)
  | l :: rest =>
      match callListener l w with
      | (w', Some thrown) => (w', Some thrown)
      | (w', None) => forEach rest w'
      end
  end.

(** [notify] (lines 148-153) *)
Definition notify (key : string) (w : World) : World * option JsValue :=
  let w := record (EvNotify key) w in
  match listeners w !! key with
  | Some ls => forEach ls w
  | None => (w, None)
  end.

(** [setQueryState] (lines 155-159) *)
Definition setQueryState (key : string) (state : QueryState) (w : World)
  : World * option JsValue :=
  let w := record (EvSet key state) (with_queries (<[key := state]> (queries w)) w) in
  notify key w.

(** The test of lines 193-199: [Some data] when the cached value is served. *)
Definition cacheHit (existingQuery : option QueryState) (now : Z) : option JsValue :=
  match existingQuery with
  | Some q =>
      if decide (status q = Status.success) then
        let age := (now - lastFetchedAt q)%Z in
        if (age <? staleTime q)%Z then Some (data q) else None
      else None
  | None => None
  end.

(** [existingQuery?.data] *)
Definition data_of (existingQuery : option QueryState) : JsValue :=
  match existingQuery with
  | Some q => data q
  | None => JUndefined
  end.

(** [existingQuery?.lastFetchedAt || 0] *)
Definition lastFetchedAt_of (existingQuery : option QueryState) : Z :=
  match existingQuery with
  | Some q => or_zero (lastFetchedAt q)
  | None => 0%Z
  end.

(** The state written before the fetch (lines 221-227). *)
Definition loadingState (existingQuery : option QueryState) (staleTime : Z) : QueryState :=
  mkQueryState (nullish_undefined (data_of existingQuery)) Status.loading None
               (lastFetchedAt_of existingQuery) staleTime.

(** The state written when the fetch succeeds (lines 232-238). *)
Definition successState (result : JsValue) (now staleTime : Z) : QueryState :=
  mkQueryState result Status.success None now staleTime.

(** The state written when the fetch fails (lines 243-249). *)
Definition errorState (existingQuery : option QueryState) (err : Error) (staleTime : Z)
  : QueryState :=
  mkQueryState (data_of existingQuery) Status.error (Some err)
               (lastFetchedAt_of existingQuery) staleTime.

(** [fetchQuery] up to [await queryFn()] (lines 181-230).  [options] is the
    optional [staleTime] of the options object.  The result is the new world
    and the promise the async method returns. *)
Definition fetchQuery (key : string) (queryFn : Fn) (options : option Z) (now : Z)
    (w : World) : World * nat :=
  let staleTime := default 0%Z options in
  let p := length (promises w) in
  let w := with_promises (promises w ++ [Pending]) w in
  let w := with_queryFns (<[key := queryFn]> (queryFns w)) w in
  let existingQuery := queries w !! key in
  match cacheHit existingQuery now with
  | Some cached => (resolve p cached w, p)
  | None =>
      if decide (status <$> existingQuery = Some Status.loading) then
        ((subscribe key (DedupWaiter key p) w).1, p)
      else
        match setQueryState key (loadingState existingQuery staleTime) w with
        | (w, Some thrown) => (reject p thrown w, p)
        | (w, None) =>
            let w := record (EvFetch key queryFn) w in
            (with_awaiting (<[p := mkFrame key queryFn existingQuery staleTime]> (awaiting w)) w, p)
        end
  end.

(** The [catch] block (lines 240-251). *)
Definition catchBlock (p : nat) (fr : Frame) (thrown : JsValue) (w : World) : World :=
  let err := normalizeError thrown in
  match setQueryState (f_key fr) (errorState (f_existingQuery fr) err (f_staleTime fr)) w with
  | (w, Some thrown') => reject p thrown' w
  | (w, None) => reject p (JError err) w
  end.

(** [fetchQuery] from the point where [await queryFn()] completes
    (lines 230-251), for the call whose promise is [p]. *)
Definition resumeFetch (p : nat) (outcome : Settlement) (now : Z) (w : World) : World :=
  match awaiting w !! p with
  | Some fr =>
      let w := with_awaiting (delete p (awaiting w)) w in
      match outcome with
      | Resolves result =>
          match setQueryState (f_key fr) (successState result now (f_staleTime fr)) w with
          | (w, Some thrown) => catchBlock p fr thrown w
          | (w, None) => resolve p result w
          end
      | Rejects thrown => catchBlock p fr thrown w
      end
  | None => w
  end.

(** [invalidateQuery] (lines 254-263) *)
Definition invalidateQuery (key : string) (now : Z) (w : World) : World :=
  match queryFns w !! key, queries w !! key with
  | Some queryFn, Some queryState =>
      let w := with_queries (delete key (queries w)) w in
      (fetchQuery key queryFn (Some (staleTime queryState)) now w).1
  | _, _ => w
  end.

(** ** Runs of the client

    What the users of one client can do to it: subscribe a callback, call an
    unsubscribe function they were given, call [fetchQuery] or
    [invalidateQuery]; and what the environment does: settle the promise of
    a pending [queryFn()] call, which resumes the suspended [fetchQuery]. *)

Inductive Op :=
| OpSubscribe (key : string) (id : nat) (body : ListenerBody)
| OpUnsubscribe (key : string) (id : nat) (body : ListenerBody)
| OpFetchQuery (key : string) (queryFn : Fn) (options : option Z) (now : Z)
| OpInvalidateQuery (key : string) (now : Z)
| OpSettle (p : nat) (outcome : Settlement) (now : Z).

Definition run_op (w : World) (o : Op) : World :=
  match o with
  | OpSubscribe key id body => (subscribe key (Callback id body) w).1
  | OpUnsubscribe key id body => unsubscribe key (Callback id body) w
  | OpFetchQuery key queryFn options now => (fetchQuery key queryFn options now w).1
  | OpInvalidateQuery key now => invalidateQuery key now w
  | OpSettle p outcome now => resumeFetch p outcome now w
  end.

Definition run (ops : list Op) (w : World) : World := fold_left run_op ops w.

Definition reachable (w : World) : Prop := ∃ ops, w = run ops newClient.

(** Consecutive calls of [fetchQuery] for one key, each with its own fetch
    function, options and clock reading; the result lists the promises the
    calls return, in call order. *)
Fixpoint fetchMany (key : string) (calls : list (Fn * option Z * Z)) (w : World)
  : World * list nat :=
  match calls with
  | [] => (w, [])
  | (queryFn, options, now) :: rest =>
      let r := fetchQuery key queryFn options now w in
      let r' := fetchMany key rest r.1 in
      (r'.1, r.2 :: r'.2)
  end.

(** ** Observations on traces *)

Definition fetch_of (e : Event) : option (string * Fn) :=
  match e with
  | EvFetch key fn => Some (key, fn)
  | _ => None
  end.

Definition call_of (e : Event) : option Listener :=
  match e with
  | EvCall l => Some l
  | _ => None
  end.

(** The events a step from [w] to [w'] added. *)
Definition new_events (w w' : World) : list Event :=
  drop (length (trace w)) (trace w').

(** The fetch functions invoked, and the listeners called, by a step. *)
Definition fetches (w w' : World) : list (string * Fn) :=
  omap fetch_of (new_events w w').
Definition calls (w w' : World) : list Listener :=
  omap call_of (new_events w w').

(** The fetches in flight for [key]: the suspended [fetchQuery] calls. *)
Definition inFlight (key : string) (w : World) : gmap nat Frame :=
  filter (λ pf, f_key pf.2 = key) (awaiting w).

(** The listeners registered for [key], in registration order. *)
Definition registered (key : string) (w : World) : list Listener :=
  default [] (listeners w !! key).

Definition throwing (l : Listener) : Prop :=
  match l with
  | Callback _ (Throws _) => True
  | _ => False
  end.

#[global] Instance throwing_dec l : Decision (throwing l).
Proof. destruct l as [? []|]; simpl; apply _. Defined.

(** The listeners [forEach] reaches: all up to and including the first one
    that throws. *)
Fixpoint upto_first_throw (ls : list Listener) : list Listener :=
  match ls with
  | [] => []
  | l :: rest => if decide (throwing l) then [l] else l :: upto_first_throw rest
  end.

Fixpoint first_throw (ls : list Listener) : option JsValue :=
  match ls with
  | [] => None
  | Callback _ (Throws v) :: _ => Some v
  | _ :: rest => first_throw rest
  end.

(** ** Well-formed worlds

    What every run of the client maintains about the deduplication waiters,
    the suspended calls and the stored states. *)

Definition state_ok (q : QueryState) : Prop :=
  (status q = Status.success → error q = None) ∧
  (status q = Status.error → is_Some (error q)) ∧
  (status q = Status.loading → error q = None) ∧
  status q ≠ Status.idle.

Record wf (w : World) : Prop := mk_wf {
  wf_waiter : ∀ key key' p, DedupWaiter key' p ∈ registered key w →
      key' = key ∧ promises w !! p = Some Pending ∧ awaiting w !! p = None;
  wf_unique : ∀ key1 key2 p, DedupWaiter key1 p ∈ registered key1 w →
      DedupWaiter key2 p ∈ registered key2 w → key1 = key2;
  wf_frame : ∀ p fr, awaiting w !! p = Some fr → promises w !! p = Some Pending;
  wf_state : ∀ key q, queries w !! key = Some q → state_ok q;
}.

(** A listener that [forEach] may call in [w]: a waiter must be the only
    owner of its promise. *)
Definition callable (w : World) (l : Listener) : Prop :=
  match l with
  | Callback _ _ => True
  | DedupWaiter k p =>
      awaiting w !! p = None ∧
      ∀ key k', DedupWaiter k' p ∈ registered key w → key = k ∧ k' = k
  end.

(** The world after the first two statements of [fetchQuery]: the promise
    of the call exists and [queryFn] is remembered. *)
Definition entered (key : string) (queryFn : Fn) (w : World) : World :=
  with_queryFns (<[key := queryFn]> (queryFns w))
                (with_promises (promises w ++ [Pending]) w).

(** Every stored state satisfies [Q]. *)
Definition all_states (Q : QueryState → Prop) (w : World) : Prop :=
  ∀ key q, queries w !! key = Some q → Q q.

(** No fetch function of the run resolves with [undefined]. *)
Definition resolves_defined (o : Op) : Prop :=
  match o with
  | OpSettle _ (Resolves v) _ => v ≠ JUndefined
  | _ => True
  end.

(** The operations other than [invalidateQuery]. *)
Definition not_invalidate (o : Op) : Prop :=
  match o with
  | OpInvalidateQuery _ _ => False
  | _ => True
  end.

(** Every suspended call sees its key loading, and no two suspended calls
    have the same key. *)
Definition single_flight (w : World) : Prop :=
  (∀ p fr, awaiting w !! p = Some fr →
     status <$> queries w !! f_key fr = Some Status.loading) ∧
  (∀ p1 p2 fr1 fr2, awaiting w !! p1 = Some fr1 → awaiting w !! p2 = Some fr2 →
     f_key fr1 = f_key fr2 → p1 = p2).

(** No suspended call and no registered waiter settles the promise [p]. *)
Definition unowned (w : World) (p : nat) : Prop :=
  awaiting w !! p = None ∧ ∀ key k', DedupWaiter k' p ∉ registered key w.

(** What a promise settles to when a waiter sees the state [st]. *)
Definition waiter_outcome (st : QueryState) : PromiseState :=
  match status st with
  | Status.success => Fulfilled (data st)
  | Status.error => Rejected (error_value (error st))
  | _ => Pending
  end.

(** What the promise of the fetching call settles to. *)
Definition fetch_outcome (outcome : Settlement) : PromiseState :=
  match outcome with
  | Resolves v => Fulfilled v
  | Rejects thrown => Rejected (JError (normalizeError thrown))
  end.

(** ** The [useQuery] hook (lines 351-375)

    The object the hook returns is a function of the snapshot that
    [useSyncExternalStore] reads with [getQueryState]; the effect of lines
    358-360 is one call of [fetchQuery], and [refetch] is
    [invalidateQuery].  The scheduling of effects and renders belongs to
    React and is not modelled. *)

Module UseQuery.
Record Result := mkResult {
  data : JsValue;
  isLoading : bool;
  isError : bool;
  isSuccess : bool;
  error : JsValue;
}.
End UseQuery.

(** [state?.error]: [undefined] without a state, else the field, which is
    [null] or an Error. *)
Definition error_view (state : option QueryState) : JsValue :=
  match state with
  | Some q => error_value (error q)
  | None => JUndefined
  end.

(** The returned object without [refetch] (lines 367-374). *)
Definition useQuery_result (state : option QueryState) : UseQuery.Result :=
  UseQuery.mkResult
    (data_of state)
    (bool_decide (status <$> state = Some Status.loading))
    (bool_decide (status <$> state = Some Status.error))
    (bool_decide (status <$> state = Some Status.success))
    (error_view state).

(** What a component using [useQuery] with [queryKey] renders from. *)
Definition useQuery_snapshot (queryKey : string) (w : World) : UseQuery.Result :=
  useQuery_result (getQueryState queryKey w).

(** The effect of lines 358-360; [staleTime] is the optional parameter of
    the hook, which defaults to 0 before it is passed on. *)
Definition useQuery_effect (queryKey : string) (queryFn : Fn) (staleTime : option Z)
    (now : Z) (w : World) : World * nat :=
  fetchQuery queryKey queryFn (Some (default 0%Z staleTime)) now w.

(** [refetch] (line 373) *)
Definition refetch (queryKey : string) (now : Z) (w : World) : World :=
  invalidateQuery queryKey now w.

(** ** Further invariants of runs *)

(** No listener set is empty and none lists a listener twice. *)
Definition registry_ok (m : gmap string (list Listener)) : Prop :=
  ∀ key ls, m !! key = Some ls → ls ≠ [] ∧ NoDup ls.

(** The operations that do not subscribe a callback that throws. *)
Definition no_thrower (o : Op) : Prop :=
  match o with
  | OpSubscribe _ _ (Throws _) => False
  | _ => True
  end.

(** No registered listener throws. *)
Definition quiet (m : gmap string (list Listener)) : Prop :=
  ∀ key ls l, m !! key = Some ls → l ∈ ls → ¬ throwing l.

(** Some call of [fetchQuery] for [key] is suspended. *)
Definition fetching (key : string) (w : World) : Prop :=
  ∃ p fr, awaiting w !! p = Some fr ∧ f_key fr = key.

(** Every pending promise belongs to a suspended call or to a registered
    waiter; a key with a registered waiter is loading; a loading key has a
    suspended call. *)
Definition all_owned (w : World) : Prop :=
  (∀ p, promises w !! p = Some Pending →
     is_Some (awaiting w !! p) ∨ ∃ key, DedupWaiter key p ∈ registered key w) ∧
  (∀ key p, DedupWaiter key p ∈ registered key w →
     status <$> queries w !! key = Some Status.loading) ∧
  (∀ key, status <$> queries w !! key = Some Status.loading → fetching key w).

(** A step from [w] to [w'] that leaves the key [k'] alone: its state, its
    remembered fetch function and its listener set are unchanged, and every
    listener the step called was registered for [key]. *)
Definition untouched (key k' : string) (w w' : World) : Prop :=
  queries w' !! k' = queries w !! k' ∧
  queryFns w' !! k' = queryFns w !! k' ∧
  listeners w' !! k' = listeners w !! k' ∧
  ∀ l, l ∈ calls w w' → l ∈ registered key w.

(** [all_owned] without what it says about the state of [key]. *)
Definition owned_but (key : string) (w : World) : Prop :=
  (∀ p, promises w !! p = Some Pending →
     is_Some (awaiting w !! p) ∨ ∃ k, DedupWaiter k p ∈ registered k w) ∧
  (∀ k p, k ≠ key → DedupWaiter k p ∈ registered k w →
     status <$> queries w !! k = Some Status.loading) ∧
  (∀ k, k ≠ key → status <$> queries w !! k = Some Status.loading → fetching k w).

(** ** The order of events

    An automaton over traces.  A state write is followed at once by the
    notification of its key; listeners are called only during a
    notification; a fetch function is invoked only at the end of the
    notification of a loading state of its key. *)

Inductive Mode :=
| Quiet
| Written (key : string) (state : QueryState)
| Delivering (key : string) (state : QueryState).

Definition protocol_step (m : Mode) (e : Event) : option Mode :=
  match e, m with
  | EvSet k st, (Quiet | Delivering _ _) => Some (Written k st)
  | EvNotify k, Written k' st =>
      if decide (k = k') then Some (Delivering k st) else None
  | EvCall _, Delivering k st => Some (Delivering k st)
  | EvFetch k _, Delivering k' st =>
      if decide (k = k' ∧ status st = Status.loading) then Some Quiet else None
  | _, _ => None
  end.

Fixpoint protocol (m : Mode) (t : list Event) : option Mode :=
  match t with
  | [] => Some m
  | e :: t =>
      match protocol_step m e with
      | Some m' => protocol m' t
      | None => None
      end
  end.

(** A mode in which an operation of the client may start or end. *)
Definition at_rest (m : Mode) : Prop :=
  match m with
  | Written _ _ => False
  | _ => True
  end.

(** Every key with a state, and every key of a suspended call, has a
    remembered fetch function. *)
Definition fns_remembered (w : World) : Prop :=
  (∀ key, is_Some (queries w !! key) → is_Some (queryFns w !! key)) ∧
  (∀ p fr, awaiting w !! p = Some fr → is_Some (queryFns w !! f_key fr)).

(** The success state [q] of [key] was written by the completion of a fetch
    for [key]: some step of the run settles a suspended call for [key] with
    the value [v] at time [now], and [q] holds [v], no error, [now] and the
    [staleTime] of that call. *)
Definition written_by (ops : list Op) (key : string) (q : QueryState) : Prop :=
  ∃ ops1 ops2 p v now fr,
    ops = ops1 ++ OpSettle p (Resolves v) now :: ops2 ∧
    awaiting (run ops1 newClient) !! p = Some fr ∧
    f_key fr = key ∧
    q = successState v now (f_staleTime fr).



(** * Properties *)

(** ** What each primitive leaves alone *)

Lemma settle_fields p s w :
  queries (settle p s w) = queries w ∧ queryFns (settle p s w) = queryFns w ∧
  listeners (settle p s w) = listeners w ∧ awaiting (settle p s w) = awaiting w ∧
  trace (settle p s w) = trace w.
Proof. unfold settle. repeat case_match; done. Qed.

Lemma settle_queries p s w : queries (settle p s w) = queries w.
Proof. apply settle_fields. Qed.
Lemma settle_queryFns p s w : queryFns (settle p s w) = queryFns w.
Proof. apply settle_fields. Qed.
Lemma settle_listeners p s w : listeners (settle p s w) = listeners w.
Proof. apply settle_fields. Qed.
Lemma settle_awaiting p s w : awaiting (settle p s w) = awaiting w.
Proof. apply settle_fields. Qed.
Lemma settle_trace p s w : trace (settle p s w) = trace w.
Proof. apply settle_fields. Qed.

Lemma unsubscribe_fields key l w :
  queries (unsubscribe key l w) = queries w ∧
  queryFns (unsubscribe key l w) = queryFns w ∧
  promises (unsubscribe key l w) = promises w ∧
  awaiting (unsubscribe key l w) = awaiting w ∧
  trace (unsubscribe key l w) = trace w.
Proof. unfold unsubscribe. repeat case_match; done. Qed.

Lemma unsubscribe_queries key l w : queries (unsubscribe key l w) = queries w.
Proof. apply unsubscribe_fields. Qed.
Lemma unsubscribe_queryFns key l w : queryFns (unsubscribe key l w) = queryFns w.
Proof. apply unsubscribe_fields. Qed.
Lemma unsubscribe_promises key l w : promises (unsubscribe key l w) = promises w.
Proof. apply unsubscribe_fields. Qed.
Lemma unsubscribe_awaiting key l w : awaiting (unsubscribe key l w) = awaiting w.
Proof. apply unsubscribe_fields. Qed.
Lemma unsubscribe_trace key l w : trace (unsubscribe key l w) = trace w.
Proof. apply unsubscribe_fields. Qed.

Lemma callListener_fields l w :
  queries (callListener l w).1 = queries w ∧
  queryFns (callListener l w).1 = queryFns w ∧
  awaiting (callListener l w).1 = awaiting w ∧
  trace (callListener l w).1 = trace w ++ [EvCall l].
Proof.
  unfold callListener, resolve, reject.
  destruct l as [id [|v]|key p]; simpl; [done..|].
  repeat case_match; simpl;
    rewrite ?(settle_queries _ _ _),
            ?(settle_queryFns _ _ _),
            ?(settle_awaiting _ _ _),
            ?(settle_trace _ _ _);
    rewrite ?(unsubscribe_queries _ _ _),
            ?(unsubscribe_queryFns _ _ _),
            ?(unsubscribe_awaiting _ _ _),
            ?(unsubscribe_trace _ _ _);
    done.
Qed.

Lemma callListener_throws l w :
  (callListener l w).2 = match l with Callback _ (Throws v) => Some v | _ => None end.
Proof.
  unfold callListener. destruct l as [id [|v]|key p]; simpl; [done..|].
  repeat case_match; done.
Qed.

Lemma forEach_fields ls : ∀ w,
  queries (forEach ls w).1 = queries w ∧
  queryFns (forEach ls w).1 = queryFns w ∧
  awaiting (forEach ls w).1 = awaiting w ∧
  trace (forEach ls w).1 = trace w ++ (EvCall <$> upto_first_throw ls) ∧
  (forEach ls w).2 = first_throw ls.
Proof.
  induction ls as [|l rest IH]; intros w; simpl.
  { by rewrite app_nil_r. }
  pose proof (callListener_fields l w) as (Hq & Hf & Ha & Ht).
  pose proof (callListener_throws l w) as Hx.
  destruct (callListener l w) as [w' [thrown|]] eqn:E; simpl in *.
  - destruct l as [id [|v]|key p]; try discriminate.
    simpl. inversion Hx; subst. done.
  - specialize (IH w') as (IHq & IHf & IHa & IHt & IHx).
    rewrite IHq, IHf, IHa, IHt, IHx, Hq, Hf, Ha, Ht.
    destruct l as [id [|v]|key p]; try discriminate; simpl;
      by rewrite <- app_assoc.
Qed.

Lemma new_events_app w w' evs : trace w' = trace w ++ evs → new_events w w' = evs.
Proof. intros H. unfold new_events. rewrite H. by rewrite drop_app_length. Qed.

Lemma upto_first_throw_all ls :
  Forall (λ l, ¬ throwing l) ls → upto_first_throw ls = ls ∧ first_throw ls = None.
Proof.
  induction 1 as [|l rest Hl _ [IH1 IH2]]; [done|]. simpl.
  rewrite decide_False by done. rewrite IH1.
  destruct l as [id [|v]|key p]; simpl in *; tauto.
Qed.

Lemma omap_call_of_calls (ls : list Listener) : omap call_of (EvCall <$> ls) = ls.
Proof. induction ls as [|l ls IH]; [done|]. cbn. by rewrite IH. Qed.

Lemma notify_fields key w :
  queries (notify key w).1 = queries w ∧
  queryFns (notify key w).1 = queryFns w ∧
  awaiting (notify key w).1 = awaiting w ∧
  trace (notify key w).1
    = trace w ++ EvNotify key :: (EvCall <$> upto_first_throw (registered key w)) ∧
  (notify key w).2 = first_throw (registered key w).
Proof.
  unfold notify, registered. simpl.
  destruct (listeners w !! key) as [ls|]; simpl; [|done].
  pose proof (forEach_fields ls (record (EvNotify key) w)) as (-> & -> & -> & -> & ->).
  simpl. by rewrite <- app_assoc.
Qed.

(** ** C6: delivery by [notify] *)

(** C6, the claim as the spec states it, fails: with a throwing listener
    registered for a key before a second listener, [notify] calls the first
    one only; the exception leaves [forEach] and the second listener, still
    registered, is never called. *)
Lemma notify_throw_stops_delivery :
  let first := Callback 1 (Throws (JStr "x")) in
  let second := Callback 2 Returns in
  let w := run [OpSubscribe "a" 1 (Throws (JStr "x")); OpSubscribe "a" 2 Returns] newClient in
  registered "a" w = [first; second] ∧
  calls w (notify "a" w).1 = [first] ∧
  (second ∉ calls w (notify "a" w).1) ∧
  (notify "a" w).2 = Some (JStr "x").
Proof.
  vm_compute. split_and!; try reflexivity.
  intros H. apply list_elem_of_In in H. simpl in H. intuition discriminate.
Qed.

(** C6, amended: [notify key] calls the listeners registered for [key] in
    registration order, each without argument, up to and including the first
    one that throws; that exception is propagated to the caller of [notify]
    and the listeners after it are not called.  When no registered listener
    throws, every one of them is called, once, in registration order. *)
Theorem notify_delivers_until_first_throw (key : string) (w : World) :
  calls w (notify key w).1 = upto_first_throw (registered key w) ∧
  (notify key w).2 = first_throw (registered key w) ∧
  (Forall (λ l, ¬ throwing l) (registered key w) →
     calls w (notify key w).1 = registered key w ∧ (notify key w).2 = None).
Proof.
  pose proof (notify_fields key w) as (_ & _ & _ & Ht & Hx).
  assert (Hc : calls w (notify key w).1 = upto_first_throw (registered key w)).
  { unfold calls. rewrite (new_events_app _ _ _ Ht). simpl.
    apply omap_call_of_calls. }
  split_and!; [done..|].
  intros Hall. destruct (upto_first_throw_all _ Hall) as [E1 E2].
  by rewrite Hc, Hx, E1, E2.
Qed.

Lemma notify_delivers_until_first_throw_witness :
  let w := run [OpSubscribe "a" 1 Returns; OpSubscribe "a" 2 Returns] newClient in
  Forall (λ l, ¬ throwing l) (registered "a" w) ∧
  calls w (notify "a" w).1 = [Callback 1 Returns; Callback 2 Returns].
Proof.
  intros w.
  assert (H : Forall (λ l, ¬ throwing l) (registered "a" w)).
  { vm_compute. repeat constructor; tauto. }
  destruct (notify_delivers_until_first_throw "a" w) as (_ & _ & Hall).
  destruct (Hall H) as [Hcalls _].
  split; [exact H|exact Hcalls].
Defined.

(** ** C9: the function returned by [subscribe] *)

Lemma set_delete_idemp l ls : set_delete l (set_delete l ls) = set_delete l ls.
Proof.
  unfold set_delete. induction ls as [|x ls IH]; [done|].
  rewrite filter_cons. case_decide; [|done].
  rewrite filter_cons, decide_True by done. by rewrite IH.
Qed.

Lemma unsubscribe_listeners key l w key' :
  listeners (unsubscribe key l w) !! key' =
    if decide (key' = key) then
      match listeners w !! key with
      | Some ls => if decide (set_delete l ls = []) then None else Some (set_delete l ls)
      | None => None
      end
    else listeners w !! key'.
Proof.
  unfold unsubscribe.
  destruct (listeners w !! key) as [ls|] eqn:E.
  - destruct (set_delete l ls) as [|x ls'] eqn:F; simpl.
    + case_decide; subst; [by rewrite lookup_delete_eq | by rewrite lookup_delete_ne].
    + case_decide; subst; [by rewrite lookup_insert_eq | by rewrite lookup_insert_ne].
  - case_decide; by subst.
Qed.

Lemma unsubscribe_idemp key l w :
  unsubscribe key l (unsubscribe key l w) = unsubscribe key l w.
Proof.
  unfold unsubscribe at 2 3.
  destruct (listeners w !! key) as [ls|] eqn:E.
  - destruct (set_delete l ls) as [|x ls'] eqn:F; simpl.
    + unfold unsubscribe. simpl. by rewrite lookup_delete_eq.
    + unfold unsubscribe. simpl. rewrite lookup_insert_eq.
      rewrite <- F, set_delete_idemp, F. simpl.
      unfold with_listeners. simpl. by rewrite insert_insert_eq.
  - unfold unsubscribe. by rewrite E.
Qed.

(** C9: let [unsub] be the function returned by [subscribe(key, l)], called
    in any later state [w'] of the client.  It removes exactly [l] from the
    listener set of [key], keeping the other listeners of [key] in their
    order; it discards the set when the removal leaves it empty; the sets of
    all other keys and every other part of the client are untouched; calling
    it again changes nothing; and with no listener set for [key] it changes
    nothing. *)
Theorem unsubscribe_exact_and_idempotent (key : string) (l : Listener) (w w' : World) :
  let unsub := (subscribe key l w).2 in
  (∀ key', listeners (unsub w') !! key' =
     if decide (key' = key) then
       match listeners w' !! key with
       | Some ls => if decide (filter (λ x, x ≠ l) ls = []) then None
                    else Some (filter (λ x, x ≠ l) ls)
       | None => None
       end
     else listeners w' !! key') ∧
  (∀ x, x ∈ registered key (unsub w') ↔ x ∈ registered key w' ∧ x ≠ l) ∧
  queries (unsub w') = queries w' ∧ queryFns (unsub w') = queryFns w' ∧
  promises (unsub w') = promises w' ∧ awaiting (unsub w') = awaiting w' ∧
  trace (unsub w') = trace w' ∧
  unsub (unsub w') = unsub w' ∧
  (listeners w' !! key = None → unsub w' = w').
Proof.
  simpl.
  pose proof (unsubscribe_fields key l w') as (Hq & Hf & Hp & Ha & Ht).
  split_and!; try done.
  - intros key'. apply unsubscribe_listeners.
  - intros x. unfold registered. rewrite unsubscribe_listeners, decide_True by done.
    destruct (listeners w' !! key) as [ls|]; simpl.
    + case_decide as E; simpl.
      * split; [by intros ?%not_elem_of_nil|]. intros [H1 H2].
        rewrite <- E. unfold set_delete. by apply list_elem_of_filter.
      * unfold set_delete. rewrite list_elem_of_filter. tauto.
    + split; [by intros ?%not_elem_of_nil | by intros [?%not_elem_of_nil _]].
  - apply unsubscribe_idemp.
  - intros E. unfold unsubscribe. by rewrite E.
Qed.

Lemma unsubscribe_exact_and_idempotent_witness :
  let w := run [OpSubscribe "a" 1 Returns; OpSubscribe "b" 2 Returns] newClient in
  listeners w !! "c" = None ∧ (subscribe "c" (Callback 3 Returns) w).2 w = w.
Proof.
  split; [reflexivity|].
  apply (unsubscribe_exact_and_idempotent "c" (Callback 3 Returns)
           (run [OpSubscribe "a" 1 Returns; OpSubscribe "b" 2 Returns] newClient)).
  reflexivity.
Defined.

(** A listener subscribed and then unsubscribed leaves the listener map as it
    was when the set for its key did not exist before. *)
Example subscribe_then_unsubscribe_discards_set :
  let '(w, unsub) := subscribe "a" (Callback 1 Returns) newClient in
  listeners w !! "a" = Some [Callback 1 Returns] ∧ listeners (unsub w) !! "a" = None.
Proof. vm_compute. done. Qed.

(** ** C2: the freshness check *)

Lemma cacheHit_Some existingQuery now v :
  cacheHit existingQuery now = Some v ↔
  ∃ q, existingQuery = Some q ∧ status q = Status.success ∧
       (now - lastFetchedAt q < staleTime q)%Z ∧ v = data q.
Proof.
  unfold cacheHit. split.
  - destruct existingQuery as [q|]; [|done].
    case_decide; [|done].
    destruct (Z.ltb_spec (now - lastFetchedAt q) (staleTime q)); [|done].
    intros [= <-]. eauto.
  - intros (q & -> & Hs & Hlt & ->).
    rewrite decide_True by done.
    by destruct (Z.ltb_spec (now - lastFetchedAt q) (staleTime q)); [|lia].
Qed.

Lemma settle_fresh p s ps w :
  promises w = ps ++ [Pending] → p = length ps →
  settle p s w = with_promises (ps ++ [s]) w.
Proof.
  intros E ->. unfold settle. rewrite E.
  rewrite list_lookup_middle by done.
  f_equal. rewrite insert_app_r_alt by done.
  by rewrite Nat.sub_diag.
Qed.

Lemma fetchQuery_hit key fn options now w v :
  cacheHit (queries w !! key) now = Some v →
  fetchQuery key fn options now w =
    (mkWorld (queries w) (<[key := fn]> (queryFns w)) (listeners w)
             (promises w ++ [Fulfilled v]) (awaiting w) (trace w),
     length (promises w)).
Proof.
  intros H. unfold fetchQuery. simpl. rewrite H.
  unfold resolve. by erewrite settle_fresh.
Qed.

(** C2, the claim as stated, fails: the check of line 195 compares the age
    with the [staleTime] stored in the state, not with the one passed to the
    call.  Here the state was written by a call without [staleTime] (so 0 is
    stored) and completed at time 1000; a call at time 1001 with
    [staleTime: 10000] has age 1 < 10000, yet it is not served from the
    cache: the state goes back to loading and the fetch function runs. *)
Lemma freshness_ignores_the_staleTime_of_the_call :
  let w := run [OpFetchQuery "a" 1 None 0; OpSettle 0 (Resolves (JNum 5)) 1000] newClient in
  let '(w', p) := fetchQuery "a" 2 (Some 10000%Z) 1001 w in
  queries w !! "a" = Some (mkQueryState (JNum 5) Status.success None 1000 0) ∧
  (1001 - 1000 < 10000)%Z ∧
  fetches w w' = [("a", 2)] ∧
  promises w' !! p = Some Pending ∧
  queries w' !! "a" = Some (mkQueryState (JNum 5) Status.loading None 1000 10000).
Proof. vm_compute. split_and!; reflexivity. Qed.

(** C2, amended: when the state of [key] has status success and
    [now - lastFetchedAt] is below the [staleTime] stored in that state,
    [fetchQuery(key, fn, options)] at time [now] returns a promise already
    fulfilled with the cached data, whatever [staleTime] the call passes.
    It remembers [fn] for [key] and does nothing else: no fetch function is
    invoked, no state is written, no listener is notified. *)
Theorem fresh_hit_returns_cached_data
    (key : string) (fn : Fn) (options : option Z) (now : Z) (w : World) (q : QueryState) :
  queries w !! key = Some q →
  status q = Status.success →
  (now - lastFetchedAt q < staleTime q)%Z →
  let w' := (fetchQuery key fn options now w).1 in
  let p := (fetchQuery key fn options now w).2 in
  promises w' !! p = Some (Fulfilled (data q)) ∧
  promises w' = promises w ++ [Fulfilled (data q)] ∧
  queryFns w' = <[key := fn]> (queryFns w) ∧
  queries w' = queries w ∧
  listeners w' = listeners w ∧
  awaiting w' = awaiting w ∧
  trace w' = trace w ∧
  fetches w w' = [] ∧ calls w w' = [].
Proof.
  intros Hq Hs Hlt.
  assert (H : cacheHit (queries w !! key) now = Some (data q)).
  { apply cacheHit_Some. eauto 6. }
  rewrite (fetchQuery_hit _ fn options _ _ _ H). simpl.
  split_and!; try done.
  - by rewrite list_lookup_middle.
  - unfold fetches, new_events. simpl. by rewrite drop_all.
  - unfold calls, new_events. simpl. by rewrite drop_all.
Qed.

Lemma fresh_hit_returns_cached_data_witness :
  let w := run [OpFetchQuery "a" 1 (Some 10000%Z) 0; OpSettle 0 (Resolves (JNum 5)) 1000] newClient in
  let w' := (fetchQuery "a" 2 None 1001 w).1 in
  promises w' !! 1%nat = Some (Fulfilled (JNum 5)) ∧ fetches w w' = [].
Proof.
  intros w w'.
  destruct (fresh_hit_returns_cached_data "a" 2 None 1001 w
              (mkQueryState (JNum 5) Status.success None 1000 10000)
              eq_refl eq_refl eq_refl)
    as (Hp & _ & _ & _ & _ & _ & _ & Hf & _).
  split; [exact Hp|exact Hf].
Defined.

(** ** Well-formedness is preserved *)

Lemma registered_unsubscribe key l w key' l' :
  l' ∈ registered key' (unsubscribe key l w) ↔
  l' ∈ registered key' w ∧ (key' = key → l' ≠ l).
Proof.
  unfold registered. rewrite unsubscribe_listeners.
  case_decide as Hk; [subst key'|tauto].
  destruct (listeners w !! key) as [ls|]; simpl.
  - case_decide as E; simpl.
    + split; [by intros ?%not_elem_of_nil|]. intros [H1 H2].
      rewrite <- E. unfold set_delete. apply list_elem_of_filter. auto.
    + unfold set_delete. rewrite list_elem_of_filter. naive_solver.
  - split; [by intros ?%not_elem_of_nil | by intros [?%not_elem_of_nil _]].
Qed.

Lemma subscribe_fields key l w :
  queries (subscribe key l w).1 = queries w ∧
  queryFns (subscribe key l w).1 = queryFns w ∧
  promises (subscribe key l w).1 = promises w ∧
  awaiting (subscribe key l w).1 = awaiting w ∧
  trace (subscribe key l w).1 = trace w.
Proof. done. Qed.

Lemma subscribe_listeners key l w key' :
  listeners (subscribe key l w).1 !! key' =
    if decide (key' = key) then Some (set_add l (registered key w))
    else listeners w !! key'.
Proof.
  unfold subscribe, registered. simpl.
  case_decide as Hk; [subst key'|].
  - rewrite lookup_insert_eq.
    destruct (listeners w !! key) as [ls|] eqn:E; simpl.
    + by rewrite E.
    + by rewrite lookup_insert_eq.
  - rewrite lookup_insert_ne by done.
    destruct (listeners w !! key) as [ls|] eqn:E; [done|].
    by rewrite lookup_insert_ne.
Qed.

Lemma elem_of_set_add l ls l' : l' ∈ set_add l ls ↔ l' ∈ ls ∨ l' = l.
Proof.
  unfold set_add. case_decide.
  - naive_solver.
  - rewrite elem_of_app, list_elem_of_singleton. done.
Qed.

Lemma registered_subscribe key l w key' l' :
  l' ∈ registered key' (subscribe key l w).1 ↔
  l' ∈ registered key' w ∨ (key' = key ∧ l' = l).
Proof.
  unfold registered at 1. rewrite subscribe_listeners.
  case_decide as Hk; [subst key'|naive_solver].
  simpl. rewrite elem_of_set_add. naive_solver.
Qed.

Lemma wf_ext w w' :
  queries w' = queries w → listeners w' = listeners w →
  promises w' = promises w → awaiting w' = awaiting w →
  wf w → wf w'.
Proof.
  intros Hq Hl Hp Ha [H1 H2 H3 H4].
  split; unfold registered in *; rewrite ?Hq, ?Hl, ?Hp, ?Ha; done.
Qed.

Lemma wf_record e w : wf w → wf (record e w).
Proof. by apply wf_ext. Qed.

Lemma wf_unsubscribe key l w : wf w → wf (unsubscribe key l w).
Proof.
  intros [H1 H2 H3 H4].
  pose proof (unsubscribe_fields key l w) as (Hq & Hf & Hp & Ha & Ht).
  split.
  - intros k k' p [Hin _]%registered_unsubscribe. rewrite Hp, Ha. eauto.
  - intros k1 k2 p [Hin1 _]%registered_unsubscribe [Hin2 _]%registered_unsubscribe. eauto.
  - intros p fr. rewrite Hp, Ha. eauto.
  - intros k q. rewrite Hq. eauto.
Qed.

Lemma wf_subscribe_callback key id body w :
  wf w → wf (subscribe key (Callback id body) w).1.
Proof.
  intros [H1 H2 H3 H4].
  pose proof (subscribe_fields key (Callback id body) w) as (Hq & Hf & Hp & Ha & Ht).
  split.
  - intros k k' p [Hin|[_ [=]]]%registered_subscribe. rewrite Hp, Ha. eauto.
  - intros k1 k2 p [Hin1|[_ [=]]]%registered_subscribe
                   [Hin2|[_ [=]]]%registered_subscribe. eauto.
  - intros p fr. rewrite Hp, Ha. eauto.
  - intros k q. rewrite Hq. eauto.
Qed.

Lemma settle_promises p s w p' :
  promises (settle p s w) !! p' =
    if decide (p' = p ∧ promises w !! p = Some Pending) then Some s
    else promises w !! p'.
Proof.
  unfold settle.
  destruct (promises w !! p) as [[| |]|] eqn:E; simpl;
    try (rewrite decide_False by naive_solver; done).
  case_decide as H.
  - destruct H as [-> _]. apply list_lookup_insert_eq. by eapply lookup_lt_Some.
  - apply list_lookup_insert_ne. naive_solver.
Qed.

Lemma wf_settle p s w :
  wf w → awaiting w !! p = None →
  (∀ key k', DedupWaiter k' p ∉ registered key w) →
  wf (settle p s w).
Proof.
  intros [H1 H2 H3 H4] Hnone Hfree.
  pose proof (settle_fields p s w) as (Hq & Hf & Hl & Ha & Ht).
  split; unfold registered in *; rewrite ?Hq, ?Hl, ?Ha.
  - intros k k' p' Hin. destruct (H1 _ _ _ Hin) as (-> & Hp & Hn).
    split_and!; [done| |done].
    rewrite settle_promises, decide_False; [done|].
    intros [-> _]. by eapply Hfree.
  - eauto.
  - intros p' fr Hfr. rewrite settle_promises, decide_False; [eauto|].
    intros [-> _]. congruence.
  - eauto.
Qed.

Lemma settle_Pending p w : settle p Pending w = w.
Proof.
  unfold settle. destruct (promises w !! p) as [[| |]|] eqn:E; try done.
  unfold with_promises. rewrite list_insert_id by done. by destruct w.
Qed.

(** The waiter of lines 205-215 in one equation. *)
Lemma callListener_waiter key p w :
  callListener (DedupWaiter key p) w =
    let w1 := record (EvCall (DedupWaiter key p)) w in
    match queries w !! key with
    | Some st =>
        if decide (status st = Status.loading) then (w1, None)
        else (settle p (waiter_outcome st) (unsubscribe key (DedupWaiter key p) w1), None)
    | None => (w1, None)
    end.
Proof.
  unfold callListener, resolve, reject, waiter_outcome. simpl.
  destruct (queries w !! key) as [st|]; [|done].
  destruct (status st) eqn:E; simpl; try done.
  by rewrite settle_Pending.
Qed.

Lemma callListener_wf l w : wf w → callable w l → wf (callListener l w).1.
Proof.
  intros Hwf Hc. destruct l as [id [|v]|key p]; try by apply wf_record.
  rewrite callListener_waiter. simpl.
  destruct (queries w !! key) as [st|]; [|by apply wf_record].
  case_decide; [by apply wf_record|]. simpl.
  destruct Hc as [Hnone Hsole].
  apply wf_settle.
  - by apply wf_unsubscribe, wf_record.
  - by rewrite (unsubscribe_awaiting _ _ _).
  - intros k k' [Hin Hne]%registered_unsubscribe.
    destruct (Hsole k k' Hin) as [-> ->]. by apply Hne.
Qed.

Lemma callListener_shrinks l w key l' :
  l' ∈ registered key (callListener l w).1 → l' ∈ registered key w.
Proof.
  destruct l as [id [|v]|k p]; try done.
  rewrite callListener_waiter. simpl.
  destruct (queries w !! k) as [st|]; [|done].
  case_decide; [done|]. simpl.
  unfold registered at 1. rewrite (settle_listeners _ _ _).
  fold (registered key (unsubscribe k (DedupWaiter k p) (record (EvCall (DedupWaiter k p)) w))).
  by intros [Hin _]%registered_unsubscribe.
Qed.

Lemma callable_anti w w' l :
  awaiting w' = awaiting w →
  (∀ key l', l' ∈ registered key w' → l' ∈ registered key w) →
  callable w l → callable w' l.
Proof.
  intros Ha Hsub. destruct l as [|k p]; [done|]. simpl.
  rewrite Ha. intros [Hn Hsole]. split; [done|]. eauto.
Qed.

Lemma forEach_wf ls : ∀ w, wf w → Forall (callable w) ls → wf (forEach ls w).1.
Proof.
  induction ls as [|l rest IH]; intros w Hwf Hall; [done|].
  inversion Hall as [|? ? Hl Hrest]; subst. simpl.
  pose proof (callListener_wf l w Hwf Hl) as Hwf'.
  pose proof (callListener_fields l w) as (_ & _ & Ha & _).
  pose proof (callListener_shrinks l w) as Hsub.
  destruct (callListener l w) as [w' [thrown|]]; simpl in *; [done|].
  apply IH; [done|].
  eapply Forall_impl; [exact Hrest|]. intros x. by apply callable_anti.
Qed.

Lemma forEach_shrinks ls : ∀ w key l',
  l' ∈ registered key (forEach ls w).1 → l' ∈ registered key w.
Proof.
  induction ls as [|l rest IH]; intros w key l'; [done|]. simpl.
  pose proof (callListener_shrinks l w key l') as Hsub.
  destruct (callListener l w) as [w' [thrown|]]; simpl in *; [done|].
  intros Hin. by apply Hsub, IH.
Qed.

Lemma wf_callable w key l : wf w → l ∈ registered key w → callable w l.
Proof.
  intros [H1 H2 H3 H4] Hin. destruct l as [|k p]; [done|]. simpl.
  destruct (H1 _ _ _ Hin) as (-> & Hp & Hn). split; [done|].
  intros key2 k' Hin2. destruct (H1 _ _ _ Hin2) as (-> & _ & _).
  assert (key2 = key) by (eapply H2; eassumption). by subst.
Qed.

Lemma notify_wf key w : wf w → wf (notify key w).1.
Proof.
  intros Hwf. unfold notify. simpl.
  destruct (listeners w !! key) as [ls|] eqn:E; [|by apply wf_record].
  apply forEach_wf; [by apply wf_record|].
  apply Forall_forall. intros l Hin.
  apply (callable_anti w); [done..|].
  apply (wf_callable w key); [done|]. unfold registered. by rewrite E.
Qed.

Lemma notify_shrinks key0 w key l' :
  l' ∈ registered key (notify key0 w).1 → l' ∈ registered key w.
Proof.
  unfold notify. simpl.
  destruct (listeners w !! key0) as [ls|]; [|done].
  by intros ?%forEach_shrinks.
Qed.

Lemma wf_with_queries m w :
  wf w → (∀ key q, m !! key = Some q → state_ok q) → wf (with_queries m w).
Proof. intros [H1 H2 H3 H4] Hm. by split. Qed.

Lemma setQueryState_wf key st w : wf w → state_ok st → wf (setQueryState key st w).1.
Proof.
  intros Hwf Hst. unfold setQueryState.
  apply notify_wf, wf_record, wf_with_queries; [done|].
  intros k q. rewrite lookup_insert. case_decide; [by intros [= <-]|].
  by apply wf_state.
Qed.

Lemma setQueryState_shrinks key0 st w key l' :
  l' ∈ registered key (setQueryState key0 st w).1 → l' ∈ registered key w.
Proof. unfold setQueryState. by intros ?%notify_shrinks. Qed.

Lemma setQueryState_fields key st w :
  queries (setQueryState key st w).1 = <[key := st]> (queries w) ∧
  queryFns (setQueryState key st w).1 = queryFns w ∧
  awaiting (setQueryState key st w).1 = awaiting w ∧
  trace (setQueryState key st w).1
    = trace w ++ EvSet key st :: EvNotify key
              :: (EvCall <$> upto_first_throw (registered key w)) ∧
  (setQueryState key st w).2 = first_throw (registered key w).
Proof.
  unfold setQueryState.
  pose proof (notify_fields key
    (record (EvSet key st) (with_queries (<[key:=st]> (queries w)) w)))
    as (-> & -> & -> & -> & ->).
  simpl. by rewrite <- app_assoc.
Qed.

Lemma setQueryState_queries key st w :
  queries (setQueryState key st w).1 = <[key := st]> (queries w).
Proof. apply setQueryState_fields. Qed.
Lemma setQueryState_awaiting key st w :
  awaiting (setQueryState key st w).1 = awaiting w.
Proof. apply setQueryState_fields. Qed.

(** ** Promises during a notification *)

Lemma callListener_promises l w p' :
  promises (callListener l w).1 !! p' = promises w !! p' ∨
  (∃ k st, l = DedupWaiter k p' ∧ promises w !! p' = Some Pending ∧
           queries w !! k = Some st ∧ status st ≠ Status.loading ∧
           promises (callListener l w).1 !! p' = Some (waiter_outcome st)).
Proof.
  destruct l as [id [|v]|k p]; try (by left).
  rewrite callListener_waiter. simpl.
  destruct (queries w !! k) as [st|] eqn:Eq; [|by left].
  case_decide as Hl; [by left|]. simpl.
  rewrite settle_promises.
  rewrite (unsubscribe_promises _ _ _). simpl.
  case_decide as H; [|by left].
  destruct H as [-> Hp]. right. exists k, st. split_and!; done.
Qed.

Lemma callListener_promises_other l w p' :
  (∀ k, l ≠ DedupWaiter k p') →
  promises (callListener l w).1 !! p' = promises w !! p'.
Proof.
  intros Hne. destruct (callListener_promises l w p') as [H|(k & st & -> & _)]; [done|].
  by destruct (Hne k).
Qed.

Lemma callListener_settled l w p' s :
  promises w !! p' = Some s → s ≠ Pending →
  promises (callListener l w).1 !! p' = Some s.
Proof.
  intros Hp Hs.
  destruct (callListener_promises l w p') as [H|(k & st & _ & Hp' & _)]; congruence.
Qed.

Lemma forEach_promises_other ls p' : ∀ w,
  (∀ k, DedupWaiter k p' ∉ ls) →
  promises (forEach ls w).1 !! p' = promises w !! p'.
Proof.
  induction ls as [|l rest IH]; intros w Hno; [done|]. simpl.
  assert (Hl : promises (callListener l w).1 !! p' = promises w !! p').
  { apply callListener_promises_other. intros k ->. apply (Hno k). by left. }
  destruct (callListener l w) as [w' [thrown|]]; simpl in *; [done|].
  rewrite IH; [done|]. intros k Hin. apply (Hno k). by right.
Qed.

Lemma forEach_settled ls p' s : ∀ w,
  promises w !! p' = Some s → s ≠ Pending →
  promises (forEach ls w).1 !! p' = Some s.
Proof.
  induction ls as [|l rest IH]; intros w Hp Hs; [done|]. simpl.
  pose proof (callListener_settled l w p' s Hp Hs) as Hl.
  destruct (callListener l w) as [w' [thrown|]]; simpl in *; [done|].
  by apply IH.
Qed.

Lemma setQueryState_promises_other key st w p' :
  (∀ k, DedupWaiter k p' ∉ registered key w) →
  promises (setQueryState key st w).1 !! p' = promises w !! p'.
Proof.
  intros Hno. unfold setQueryState, notify. simpl.
  unfold registered in Hno.
  destruct (listeners w !! key) as [ls|]; [|done].
  by rewrite forEach_promises_other.
Qed.

Lemma unowned_setQueryState key st w p :
  unowned w p → unowned (setQueryState key st w).1 p.
Proof.
  intros [Hn Hfree]. split.
  - by rewrite (setQueryState_awaiting _ _ _).
  - intros k k' Hin%setQueryState_shrinks. by eapply Hfree.
Qed.

(** ** Every run of the client stays well-formed *)

Lemma wf_newClient : wf newClient.
Proof.
  split; unfold registered; simpl; intros *; rewrite ?lookup_empty; simpl;
    try done; by intros ?%not_elem_of_nil.
Qed.

Lemma wf_new_promise w : wf w → wf (with_promises (promises w ++ [Pending]) w).
Proof.
  intros [H1 H2 H3 H4]. split; simpl; try done.
  - intros k k' p Hin. destruct (H1 _ _ _ Hin) as (-> & Hp & Hn).
    split_and!; [done| |done]. by apply lookup_app_l_Some.
  - intros p fr Hfr. apply lookup_app_l_Some. eauto.
Qed.

Lemma wf_fresh_unowned w : wf w → unowned w (length (promises w)).
Proof.
  intros [H1 H2 H3 H4]. split.
  - destruct (awaiting w !! length (promises w)) as [fr|] eqn:E; [|done].
    apply H3, lookup_lt_Some in E. lia.
  - intros k k' Hin. destruct (H1 _ _ _ Hin) as (_ & Hp%lookup_lt_Some & _). lia.
Qed.

Lemma wf_subscribe_waiter key p w :
  wf w → promises w !! p = Some Pending → unowned w p →
  wf (subscribe key (DedupWaiter key p) w).1.
Proof.
  intros [H1 H2 H3 H4] Hp [Hn Hfree].
  pose proof (subscribe_fields key (DedupWaiter key p) w) as (Hq & Hf & Hps & Ha & Ht).
  split.
  - intros k k' p' [Hin|[-> [= -> ->]]]%registered_subscribe; rewrite Hps, Ha; eauto.
  - intros k1 k2 p' [Hin1|[_ [= ->]]]%registered_subscribe
                    [Hin2|[_ [= E2]]]%registered_subscribe; subst; eauto.
    + by destruct (Hfree _ _ Hin1).
    + by destruct (Hfree _ _ Hin2).
  - intros p' fr. rewrite Hps, Ha. eauto.
  - intros k q. rewrite Hq. eauto.
Qed.

Lemma wf_add_frame p fr w :
  wf w → promises w !! p = Some Pending →
  (∀ key k', DedupWaiter k' p ∉ registered key w) →
  wf (with_awaiting (<[p := fr]> (awaiting w)) w).
Proof.
  intros [H1 H2 H3 H4] Hp Hfree. split; simpl; try done.
  - intros k k' p' Hin. destruct (H1 _ _ _ Hin) as (-> & Hp' & Hn).
    split_and!; [done..|]. rewrite lookup_insert_ne; [done|].
    intros ->. by eapply Hfree.
  - intros p' fr'. rewrite lookup_insert. case_decide; [by subst|eauto].
Qed.

Lemma wf_del_frame p w :
  wf w → wf (with_awaiting (delete p (awaiting w)) w).
Proof.
  intros [H1 H2 H3 H4]. split; simpl; try done.
  - intros k k' p' Hin. destruct (H1 _ _ _ Hin) as (-> & Hp' & Hn).
    split_and!; [done..|]. rewrite lookup_delete. by case_decide.
  - intros p' fr'. rewrite lookup_delete. case_decide; [done|eauto].
Qed.

Lemma state_ok_loading existingQuery s : state_ok (loadingState existingQuery s).
Proof. unfold state_ok; simpl. split_and!; done. Qed.

Lemma state_ok_success v now s : state_ok (successState v now s).
Proof. unfold state_ok; simpl. split_and!; done. Qed.

Lemma state_ok_error existingQuery err s : state_ok (errorState existingQuery err s).
Proof. unfold state_ok; simpl. split_and!; done || eauto. Qed.

Lemma fetchQuery_dedup key fn options now w q :
  queries w !! key = Some q → status q = Status.loading →
  fetchQuery key fn options now w =
    ((subscribe key (DedupWaiter key (length (promises w))) (entered key fn w)).1,
     length (promises w)).
Proof.
  intros Hq Hs. unfold fetchQuery. simpl. rewrite Hq. simpl.
  rewrite decide_False by (rewrite Hs; done).
  rewrite Hs. rewrite decide_True by done. done.
Qed.

Lemma fetchQuery_fetch key fn options now w :
  cacheHit (queries w !! key) now = None →
  status <$> queries w !! key ≠ Some Status.loading →
  fetchQuery key fn options now w =
    let p := length (promises w) in
    let existingQuery := queries w !! key in
    let s := default 0%Z options in
    match setQueryState key (loadingState existingQuery s) (entered key fn w) with
    | (w1, Some thrown) => (reject p thrown w1, p)
    | (w1, None) =>
        (with_awaiting (<[p := mkFrame key fn existingQuery s]> (awaiting w1))
                       (record (EvFetch key fn) w1), p)
    end.
Proof.
  intros Hh Hl. unfold fetchQuery. simpl. rewrite Hh.
  rewrite decide_False by done. done.
Qed.

Lemma fetchQuery_cases key now w :
  (∃ v, cacheHit (queries w !! key) now = Some v) ∨
  (∃ q, queries w !! key = Some q ∧ status q = Status.loading) ∨
  (cacheHit (queries w !! key) now = None ∧
   status <$> queries w !! key ≠ Some Status.loading).
Proof.
  destruct (cacheHit (queries w !! key) now) as [v|] eqn:E; [eauto|].
  destruct (queries w !! key) as [q|] eqn:Eq; [|by right; right].
  destruct (decide (status q = Status.loading)); [eauto 6|].
  right; right. split; [done|]. simpl. congruence.
Qed.

Lemma wf_entered key (fn : Fn) w : wf w → wf (entered key fn w).
Proof.
  intros Hwf. unfold entered.
  eapply (wf_ext (with_promises (promises w ++ [Pending]) w)); try done.
  by apply wf_new_promise.
Qed.

Lemma entered_fresh key (fn : Fn) w :
  wf w →
  promises (entered key fn w) !! length (promises w) = Some Pending ∧
  unowned (entered key fn w) (length (promises w)).
Proof.
  intros Hwf. split.
  - simpl. by rewrite list_lookup_middle.
  - by destruct (wf_fresh_unowned w Hwf).
Qed.

Lemma fetchQuery_wf key fn options now w : wf w → wf (fetchQuery key fn options now w).1.
Proof.
  intros Hwf.
  pose proof (wf_entered key fn w Hwf) as Hwf0.
  destruct (entered_fresh key fn w Hwf) as [Hp0 Hun0].
  destruct (fetchQuery_cases key now w) as [[v Hh]|[(q & Hq & Hs)|[Hh Hl]]].
  - rewrite (fetchQuery_hit _ fn options _ _ _ Hh). simpl.
    destruct Hun0 as [Hn Hfree].
    pose proof (wf_settle (length (promises w)) (Fulfilled v) _ Hwf0 Hn Hfree) as H.
    erewrite settle_fresh in H; [|done..]. exact H.
  - rewrite (fetchQuery_dedup _ fn options now _ _ Hq Hs).
    by apply (wf_subscribe_waiter key (length (promises w)) (entered key fn w)).
  - rewrite (fetchQuery_fetch _ fn options _ _ Hh Hl). simpl.
    set (st := loadingState (queries w !! key) (default 0%Z options)).
    pose proof (setQueryState_wf key st _ Hwf0 (state_ok_loading _ _)) as Hwf1.
    pose proof (unowned_setQueryState key st _ _ Hun0) as [Hn1 Hfree1].
    pose proof (setQueryState_promises_other key st (entered key fn w)
                  (length (promises w)) (λ k, proj2 Hun0 key k)) as Hp1.
    destruct (setQueryState key st (entered key fn w)) as [w1 [thrown|]]; simpl in *.
    + by apply wf_settle.
    + apply (wf_add_frame _ _ (record (EvFetch key fn) w1));
        [by apply wf_record|simpl; by rewrite Hp1|done].
Qed.

Lemma catchBlock_wf p fr thrown w : wf w → unowned w p → wf (catchBlock p fr thrown w).
Proof.
  intros Hwf Hun. unfold catchBlock.
  set (st := errorState _ _ _).
  pose proof (setQueryState_wf (f_key fr) st _ Hwf (state_ok_error _ _ _)) as Hwf1.
  pose proof (unowned_setQueryState (f_key fr) st _ _ Hun) as [Hn1 Hfree1].
  destruct (setQueryState (f_key fr) st w) as [w1 [thrown'|]]; simpl in *;
    by apply wf_settle.
Qed.

Lemma resumeFetch_wf p outcome now w : wf w → wf (resumeFetch p outcome now w).
Proof.
  intros Hwf. unfold resumeFetch.
  destruct (awaiting w !! p) as [fr|] eqn:Efr; [|done].
  set (w0 := with_awaiting (delete p (awaiting w)) w).
  assert (Hwf0 : wf w0) by by apply wf_del_frame.
  assert (Hun0 : unowned w0 p).
  { split; [simpl; by rewrite lookup_delete_eq|].
    intros k k' Hin. destruct (wf_waiter w Hwf _ _ _ Hin) as (_ & _ & Hn). congruence. }
  destruct outcome as [result|thrown]; [|by apply catchBlock_wf].
  set (st := successState _ _ _).
  pose proof (setQueryState_wf (f_key fr) st _ Hwf0 (state_ok_success _ _ _)) as Hwf1.
  pose proof (unowned_setQueryState (f_key fr) st _ _ Hun0) as Hun1.
  destruct (setQueryState (f_key fr) st w0) as [w1 [thrown|]]; simpl in *.
  - by apply catchBlock_wf.
  - destruct Hun1. by apply wf_settle.
Qed.

Lemma invalidateQuery_wf key now w : wf w → wf (invalidateQuery key now w).
Proof.
  intros Hwf. unfold invalidateQuery.
  destruct (queryFns w !! key) as [fn|]; [|done].
  destruct (queries w !! key) as [q|] eqn:Eq; [|done].
  apply fetchQuery_wf, wf_with_queries; [done|].
  intros k q'. rewrite lookup_delete. case_decide; [done|]. by apply wf_state.
Qed.

Lemma run_op_wf w o : wf w → wf (run_op w o).
Proof.
  intros Hwf. destruct o; simpl.
  - by apply wf_subscribe_callback.
  - by apply wf_unsubscribe.
  - by apply fetchQuery_wf.
  - by apply invalidateQuery_wf.
  - by apply resumeFetch_wf.
Qed.

Lemma run_wf ops : ∀ w, wf w → wf (run ops w).
Proof.
  induction ops as [|o ops IH]; intros w Hwf; [done|].
  simpl. by apply IH, run_op_wf.
Qed.

Lemma reachable_wf w : reachable w → wf w.
Proof. intros [ops ->]. apply run_wf, wf_newClient. Qed.

(** ** C7: the invariant of the stored states *)

Section AllStates.
Variable Q : QueryState → Prop.
Hypothesis Q_loading : ∀ existingQuery s, Q (loadingState existingQuery s).
Hypothesis Q_error : ∀ existingQuery err s, Q (errorState existingQuery err s).

Lemma all_states_set key st w :
  all_states Q w → Q st → all_states Q (setQueryState key st w).1.
Proof.
  intros Hall Hst k q.
  rewrite (setQueryState_queries key st w), lookup_insert.
  case_decide; [by intros [= <-]|apply Hall].
Qed.

Lemma all_states_settle p s w : all_states Q w → all_states Q (settle p s w).
Proof. intros Hall k q. rewrite (settle_queries p s w). apply Hall. Qed.

Lemma all_states_fetchQuery key fn options now w :
  all_states Q w → all_states Q (fetchQuery key fn options now w).1.
Proof.
  intros Hall.
  destruct (fetchQuery_cases key now w) as [[v Hh]|[(q & Hq & Hs)|[Hh Hl]]].
  - by rewrite (fetchQuery_hit _ fn options _ _ _ Hh).
  - by rewrite (fetchQuery_dedup _ fn options now _ _ Hq Hs).
  - rewrite (fetchQuery_fetch _ fn options _ _ Hh Hl). simpl.
    set (st := loadingState _ _).
    pose proof (all_states_set key st (entered key fn w) Hall (Q_loading _ _)) as H1.
    destruct (setQueryState key st (entered key fn w)) as [w1 [thrown|]]; simpl in *.
    + by apply all_states_settle.
    + done.
Qed.

Lemma all_states_catchBlock p fr thrown w :
  all_states Q w → all_states Q (catchBlock p fr thrown w).
Proof.
  intros Hall. unfold catchBlock. set (st := errorState _ _ _).
  pose proof (all_states_set (f_key fr) st w Hall (Q_error _ _ _)) as H1.
  destruct (setQueryState (f_key fr) st w) as [w1 [thrown'|]]; simpl in *;
    by apply all_states_settle.
Qed.

Lemma all_states_resumeFetch p outcome now w :
  all_states Q w →
  (∀ v s, outcome = Resolves v → Q (successState v now s)) →
  all_states Q (resumeFetch p outcome now w).
Proof.
  intros Hall Hsucc. unfold resumeFetch.
  destruct (awaiting w !! p) as [fr|]; [|done].
  set (w0 := with_awaiting _ w). assert (H0 : all_states Q w0) by done.
  destruct outcome as [result|thrown]; [|by apply all_states_catchBlock].
  set (st := successState _ _ _).
  pose proof (all_states_set (f_key fr) st w0 H0 (Hsucc _ _ eq_refl)) as H1.
  destruct (setQueryState (f_key fr) st w0) as [w1 [thrown|]]; simpl in *.
  - by apply all_states_catchBlock.
  - by apply all_states_settle.
Qed.

Lemma all_states_invalidateQuery key now w :
  all_states Q w → all_states Q (invalidateQuery key now w).
Proof.
  intros Hall. unfold invalidateQuery.
  destruct (queryFns w !! key) as [fn|]; [|done].
  destruct (queries w !! key) as [q|] eqn:Eq; [|done].
  apply all_states_fetchQuery. intros k q'. simpl.
  rewrite lookup_delete. case_decide; [done|apply Hall].
Qed.

Lemma all_states_run ops : ∀ w,
  Forall (λ o, ∀ p v now s, o = OpSettle p (Resolves v) now → Q (successState v now s)) ops →
  all_states Q w → all_states Q (run ops w).
Proof.
  induction ops as [|o ops IH]; intros w Hops Hall; [done|].
  inversion Hops as [|? ? Ho Hrest]; subst. simpl. apply IH; [done|].
  destruct o; simpl.
  - done.
  - intros k q. rewrite (unsubscribe_queries _ _ _). apply Hall.
  - by apply all_states_fetchQuery.
  - by apply all_states_invalidateQuery.
  - apply all_states_resumeFetch; [done|]. intros v s ->. by eapply Ho.
Qed.
End AllStates.

(** C7, the claim as stated, fails: a fetch function that resolves with
    [undefined] leaves a state with status success whose data is absent. *)
Lemma success_state_with_absent_data :
  let w := run [OpFetchQuery "a" 1 None 0; OpSettle 0 (Resolves JUndefined) 5] newClient in
  reachable w ∧
  queries w !! "a" = Some (mkQueryState JUndefined Status.success None 5 0).
Proof. split; [by eexists|]. vm_compute. reflexivity. Qed.

(** ** The fetch path of [fetchQuery] *)

Lemma omap_fetch_of_calls (ls : list Listener) : omap fetch_of (EvCall <$> ls) = [].
Proof. induction ls as [|l ls IH]; [done|]. cbn. by rewrite IH. Qed.

Lemma first_throw_None ls : first_throw ls = None → upto_first_throw ls = ls.
Proof.
  induction ls as [|l ls IH]; [done|]. simpl.
  destruct l as [id [|v]|k p]; simpl; try done; intros H; by rewrite IH.
Qed.

Lemma first_throw_None_Forall ls :
  first_throw ls = None ↔ Forall (λ l, ¬ throwing l) ls.
Proof.
  split.
  - induction ls as [|l ls IH]; [constructor|]. simpl.
    destruct l as [id [|v]|k p]; simpl; try done; intros H;
      constructor; simpl; auto.
  - intros H. by apply upto_first_throw_all.
Qed.

Lemma fetchQuery_fetch_fields key fn options now w :
  cacheHit (queries w !! key) now = None →
  status <$> queries w !! key ≠ Some Status.loading →
  let w' := (fetchQuery key fn options now w).1 in
  let p := length (promises w) in
  let st := loadingState (queries w !! key) (default 0%Z options) in
  (fetchQuery key fn options now w).2 = p ∧
  queries w' = <[key := st]> (queries w) ∧
  queryFns w' = <[key := fn]> (queryFns w) ∧
  match first_throw (registered key w) with
  | None =>
      awaiting w' = <[p := mkFrame key fn (queries w !! key) (default 0%Z options)]> (awaiting w) ∧
      trace w' = trace w ++ EvSet key st :: EvNotify key
                   :: (EvCall <$> registered key w) ++ [EvFetch key fn]
  | Some thrown =>
      awaiting w' = awaiting w ∧
      trace w' = trace w ++ EvSet key st :: EvNotify key
                   :: (EvCall <$> upto_first_throw (registered key w))
  end.
Proof.
  intros Hh Hl. rewrite (fetchQuery_fetch _ fn options _ _ Hh Hl). simpl.
  set (st := loadingState _ _).
  pose proof (setQueryState_fields key st (entered key fn w)) as (Hq & Hf & Ha & Ht & Hx).
  change (registered key (entered key fn w)) with (registered key w) in *.
  destruct (setQueryState key st (entered key fn w)) as [w1 [thrown|]]; simpl in *.
  - rewrite <- Hx. unfold reject.
    pose proof (settle_fields (length (promises w)) (Rejected thrown) w1)
      as (-> & -> & _ & -> & ->).
    by rewrite Hq, Hf, Ha, Ht.
  - rewrite <- Hx. rewrite Hq, Hf, Ha, Ht.
    rewrite (first_throw_None _ (eq_sym Hx)).
    split_and!; try done. by rewrite <- app_assoc.
Qed.

Lemma fetchQuery_queryFns key fn options now w :
  queryFns (fetchQuery key fn options now w).1 = <[key := fn]> (queryFns w).
Proof.
  destruct (fetchQuery_cases key now w) as [[v Hh]|[(q & Hq & Hs)|[Hh Hl]]].
  - by rewrite (fetchQuery_hit _ fn options _ _ _ Hh).
  - by rewrite (fetchQuery_dedup _ fn options now _ _ Hq Hs).
  - by destruct (fetchQuery_fetch_fields key fn options now w Hh Hl) as (_ & _ & H & _).
Qed.

Lemma fetchQuery_state_exists key fn options now w :
  is_Some (queries (fetchQuery key fn options now w).1 !! key).
Proof.
  destruct (fetchQuery_cases key now w) as [[v Hh]|[(q & Hq & Hs)|[Hh Hl]]].
  - rewrite (fetchQuery_hit _ fn options _ _ _ Hh). simpl.
    apply cacheHit_Some in Hh as (q & -> & _). eauto.
  - rewrite (fetchQuery_dedup _ fn options now _ _ Hq Hs). simpl. eauto.
  - destruct (fetchQuery_fetch_fields key fn options now w Hh Hl) as (_ & -> & _).
    rewrite lookup_insert_eq. eauto.
Qed.

Lemma catchBlock_queryFns p fr thrown w :
  queryFns (catchBlock p fr thrown w) = queryFns w.
Proof.
  unfold catchBlock. set (st := errorState _ _ _).
  pose proof (setQueryState_fields (f_key fr) st w) as (_ & Hf & _).
  destruct (setQueryState (f_key fr) st w) as [w1 [thrown'|]]; simpl in *;
    unfold reject; by rewrite (settle_queryFns _ _ _).
Qed.

Lemma resumeFetch_queryFns p outcome now w :
  queryFns (resumeFetch p outcome now w) = queryFns w.
Proof.
  unfold resumeFetch. destruct (awaiting w !! p) as [fr|]; [|done].
  destruct outcome as [result|thrown]; [|by rewrite catchBlock_queryFns].
  set (st := successState _ _ _). set (w0 := with_awaiting _ w).
  pose proof (setQueryState_fields (f_key fr) st w0) as (_ & Hf & _).
  destruct (setQueryState (f_key fr) st w0) as [w1 [thrown|]]; simpl in *.
  - by rewrite catchBlock_queryFns.
  - unfold resolve. by rewrite (settle_queryFns _ _ _).
Qed.

Lemma invalidateQuery_queryFns key now w :
  queryFns (invalidateQuery key now w) = queryFns w.
Proof.
  unfold invalidateQuery.
  destruct (queryFns w !! key) as [fn|] eqn:Ef; [|done].
  destruct (queries w !! key) as [q|]; [|done].
  rewrite fetchQuery_queryFns. simpl. by apply insert_id.
Qed.

(** ** C8: [invalidateQuery] *)

Lemma omap_fetch_of_fetch_path key st ls (fn : Fn) :
  omap fetch_of (EvSet key st :: EvNotify key :: (EvCall <$> ls) ++ [EvFetch key fn])
  = [(key, fn)].
Proof. cbn. by rewrite omap_app, omap_fetch_of_calls. Qed.

(** C8: [invalidateQuery(key)] changes nothing when [key] has no stored
    state or no remembered fetch function.  When it has both, it deletes the
    state and runs [fetchQuery(key, rememberedFn, {staleTime:
    previousState.staleTime})] on the result at once: the client does
    change, the new state of [key] is a loading state without data and with
    the previous staleTime, and, unless a listener of [key] throws, the
    remembered function is invoked.  The remembered function is the one
    passed to the latest [fetchQuery] for [key], on whichever path that call
    went and whoever made it; no other operation replaces it.  Being a call
    of an async method whose promise is dropped, the refetch cannot make
    [invalidateQuery] throw, so the model gives it no exception result. *)
Theorem invalidateQuery_contract (key : string) (now : Z) (w : World) :
  (queries w !! key = None ∨ queryFns w !! key = None → invalidateQuery key now w = w) ∧
  (∀ q fn, queries w !! key = Some q → queryFns w !! key = Some fn →
     invalidateQuery key now w
       = (fetchQuery key fn (Some (staleTime q)) now
            (with_queries (delete key (queries w)) w)).1 ∧
     invalidateQuery key now w ≠ w ∧
     queries (invalidateQuery key now w) !! key
       = Some (mkQueryState JUndefined Status.loading None 0 (staleTime q)) ∧
     (Forall (λ l, ¬ throwing l) (registered key w) →
        fetches w (invalidateQuery key now w) = [(key, fn)] ∧
        awaiting (invalidateQuery key now w) !! length (promises w)
          = Some (mkFrame key fn None (staleTime q)))) ∧
  (∀ fn options now0, queryFns (fetchQuery key fn options now0 w).1 !! key = Some fn) ∧
  (∀ o, (∀ fn options now0, o ≠ OpFetchQuery key fn options now0) →
        queryFns (run_op w o) !! key = queryFns w !! key).
Proof.
  split_and!.
  - unfold invalidateQuery. intros [->| ->]; [|done]. by destruct (queryFns w !! key).
  - intros q fn Hq Hf.
    assert (E : invalidateQuery key now w
                = (fetchQuery key fn (Some (staleTime q)) now
                     (with_queries (delete key (queries w)) w)).1).
    { unfold invalidateQuery. by rewrite Hf, Hq. }
    set (w0 := with_queries (delete key (queries w)) w) in *.
    assert (Hnone : queries w0 !! key = None) by (simpl; apply lookup_delete_eq).
    assert (Hh : cacheHit (queries w0 !! key) now = None) by by rewrite Hnone.
    assert (Hl : status <$> queries w0 !! key ≠ Some Status.loading) by by rewrite Hnone.
    destruct (fetchQuery_fetch_fields key fn (Some (staleTime q)) now w0 Hh Hl)
      as (_ & Hqs & _ & Hrest).
    rewrite <- E in Hqs, Hrest. rewrite Hnone in Hqs, Hrest.
    change (registered key w0) with (registered key w) in Hrest.
    change (trace w0) with (trace w) in Hrest.
    change (awaiting w0) with (awaiting w) in Hrest.
    change (promises w0) with (promises w) in Hrest.
    split_and!.
    + exact E.
    + intros Heq. rewrite Heq in Hrest.
      destruct (first_throw (registered key w)); destruct Hrest as [_ Ht];
        apply (f_equal length) in Ht; rewrite length_app in Ht; simpl in Ht; lia.
    + rewrite Hqs. by rewrite lookup_insert_eq.
    + intros Hall. apply first_throw_None_Forall in Hall. rewrite Hall in Hrest.
      destruct Hrest as [Ha Ht]. split.
      * unfold fetches. rewrite (new_events_app _ _ _ Ht).
        apply omap_fetch_of_fetch_path.
      * rewrite Ha. by rewrite lookup_insert_eq.
  - intros fn options now0. rewrite fetchQuery_queryFns. by rewrite lookup_insert_eq.
  - intros o Ho. destruct o as [k id b|k id b|k fn options now0|k now0|p outcome now0]; simpl.
    + done.
    + by rewrite (unsubscribe_queryFns _ _ _).
    + rewrite fetchQuery_queryFns. rewrite lookup_insert_ne; [done|].
      intros ->. by eapply Ho.
    + by rewrite invalidateQuery_queryFns.
    + by rewrite resumeFetch_queryFns.
Qed.

Lemma invalidateQuery_contract_witness :
  let w := run [OpFetchQuery "a" 1 (Some 10%Z) 0; OpSettle 0 (Resolves (JNum 5)) 3;
                OpFetchQuery "a" 2 None 4] newClient in
  queries w !! "a" = Some (mkQueryState (JNum 5) Status.success None 3 10) ∧
  queryFns w !! "a" = Some 2%nat ∧
  Forall (λ l, ¬ throwing l) (registered "a" w) ∧
  fetches w (invalidateQuery "a" 20 w) = [("a", 2%nat)] ∧
  invalidateQuery "b" 20 w = w.
Proof.
  set (w := run [OpFetchQuery "a" 1 (Some 10%Z) 0; OpSettle 0 (Resolves (JNum 5)) 3;
                 OpFetchQuery "a" 2 None 4] newClient).
  assert (Hall : Forall (λ l, ¬ throwing l) (registered "a" w)) by constructor.
  assert (Hq : queries w !! "a" = Some (mkQueryState (JNum 5) Status.success None 3 10))
    by reflexivity.
  assert (Hf : queryFns w !! "a" = Some 2%nat) by reflexivity.
  pose proof (invalidateQuery_contract "a" 20 w) as (_ & H & _).
  pose proof (invalidateQuery_contract "b" 20 w) as (Hb & _).
  destruct (H _ _ Hq Hf) as (_ & _ & _ & Hfetch).
  split_and!; [exact Hq|exact Hf|exact Hall|exact (proj1 (Hfetch Hall))|].
  exact (Hb (or_introl eq_refl)).
Defined.

(** ** The continuation of [fetchQuery] *)

Lemma catchBlock_fields p fr thrown w :
  let st := errorState (f_existingQuery fr) (normalizeError thrown) (f_staleTime fr) in
  let w' := catchBlock p fr thrown w in
  queries w' = <[f_key fr := st]> (queries w) ∧
  awaiting w' = awaiting w ∧
  trace w' = trace w ++ EvSet (f_key fr) st :: EvNotify (f_key fr)
               :: (EvCall <$> upto_first_throw (registered (f_key fr) w)).
Proof.
  simpl. unfold catchBlock. set (st := errorState _ _ _).
  pose proof (setQueryState_fields (f_key fr) st w) as (Hq & _ & Ha & Ht & _).
  destruct (setQueryState (f_key fr) st w) as [w1 [thrown'|]]; simpl in *;
    unfold reject;
    rewrite (settle_queries _ _ _),
            (settle_awaiting _ _ _),
            (settle_trace _ _ _);
    done.
Qed.

Lemma catchBlock_queries p fr thrown w :
  queries (catchBlock p fr thrown w)
  = <[f_key fr := errorState (f_existingQuery fr) (normalizeError thrown) (f_staleTime fr)]>
      (queries w).
Proof. apply catchBlock_fields. Qed.

Lemma catchBlock_promise p fr thrown w :
  (∀ k, DedupWaiter k p ∉ registered (f_key fr) w) →
  promises w !! p = Some Pending →
  promises (catchBlock p fr thrown w) !! p =
    Some (Rejected (match first_throw (registered (f_key fr) w) with
                    | Some thrown' => thrown'
                    | None => JError (normalizeError thrown)
                    end)).
Proof.
  intros Hfree Hp. unfold catchBlock. set (st := errorState _ _ _).
  pose proof (setQueryState_fields (f_key fr) st w) as (_ & _ & _ & _ & Hx).
  pose proof (setQueryState_promises_other (f_key fr) st w p Hfree) as Hp1.
  rewrite Hp in Hp1.
  destruct (setQueryState (f_key fr) st w) as [w1 [thrown'|]]; simpl in *;
    rewrite <- Hx; unfold reject; rewrite settle_promises;
    by rewrite decide_True.
Qed.

Lemma resumeFetch_rejects p fr thrown now w :
  awaiting w !! p = Some fr →
  resumeFetch p (Rejects thrown) now w
  = catchBlock p fr thrown (with_awaiting (delete p (awaiting w)) w).
Proof. intros H. unfold resumeFetch. by rewrite H. Qed.

Lemma resumeFetch_resolves p fr result now w :
  awaiting w !! p = Some fr →
  resumeFetch p (Resolves result) now w
  = match setQueryState (f_key fr) (successState result now (f_staleTime fr))
            (with_awaiting (delete p (awaiting w)) w) with
    | (w1, Some thrown) => catchBlock p fr thrown w1
    | (w1, None) => resolve p result w1
    end.
Proof. intros H. unfold resumeFetch. by rewrite H. Qed.

(** The final state of the key, and the states written, by a resumed call. *)
Lemma resumeFetch_writes p fr outcome now w :
  awaiting w !! p = Some fr →
  let w' := resumeFetch p outcome now w in
  let k := f_key fr in
  awaiting w' = delete p (awaiting w) ∧
  (∃ st, queries w' !! k = Some st ∧ staleTime st = f_staleTime fr ∧
         status st ≠ Status.loading ∧
         (∀ thrown, outcome = Rejects thrown →
            st = errorState (f_existingQuery fr) (normalizeError thrown) (f_staleTime fr))) ∧
  (∀ k' st, EvSet k' st ∈ new_events w w' →
     k' = k ∧ staleTime st = f_staleTime fr ∧
     (status st = Status.success ∨ status st = Status.error)).
Proof.
  intros Hfr. simpl. set (w0 := with_awaiting (delete p (awaiting w)) w).
  assert (Hin : ∀ k' st k st' ls,
            EvSet k' st ∈ EvSet k st' :: EvNotify k :: (EvCall <$> ls) →
            k' = k ∧ st = st').
  { intros k' st k st' ls [[= -> ->]|[[=]|(l & [=] & _)%list_elem_of_fmap]%elem_of_cons]%elem_of_cons.
    done. }
  destruct outcome as [result|thrown].
  - rewrite (resumeFetch_resolves _ _ _ _ _ Hfr). fold w0.
    set (st := successState result now (f_staleTime fr)).
    pose proof (setQueryState_fields (f_key fr) st w0) as (Hq & _ & Ha & Ht & _).
    destruct (setQueryState (f_key fr) st w0) as [w1 [thrown|]]; simpl in *.
    + pose proof (catchBlock_fields p fr thrown w1) as (Hq' & Ha' & Ht'). simpl in *.
      split_and!.
      * by rewrite Ha', Ha.
      * eexists. rewrite Hq', lookup_insert_eq. split_and!; done.
      * intros k' st'. unfold new_events.
        rewrite Ht', Ht, <- app_assoc, drop_app_length.
        intros [Hi|Hi]%elem_of_app; apply Hin in Hi as [-> ->]; simpl; auto.
    + unfold resolve.
      pose proof (settle_fields p (Fulfilled result) w1) as (Sq & _ & _ & Sa & St).
      split_and!.
      * by rewrite Sa.
      * exists st. rewrite Sq, Hq, lookup_insert_eq. split_and!; done.
      * intros k' st'. unfold new_events. rewrite St, Ht, drop_app_length.
        intros Hi. apply Hin in Hi as [-> ->]; simpl; auto.
  - rewrite (resumeFetch_rejects _ _ _ _ _ Hfr). fold w0.
    pose proof (catchBlock_fields p fr thrown w0) as (Hq' & Ha' & Ht'). simpl in *.
    split_and!.
    + done.
    + eexists. rewrite Hq', lookup_insert_eq. split_and!; try done.
      by intros ? [= <-].
    + intros k' st'. unfold new_events. rewrite Ht', drop_app_length.
      intros Hi. apply Hin in Hi as [-> ->]; simpl; auto.
Qed.

(** ** C10: the stored [staleTime] *)

(** C10: let [s] be the [staleTime] of a call [fetchQuery(key, fn,
    {staleTime: s})] (0 when omitted).  On the fetch path the loading state
    it writes stores [s], and so does the suspended call.  When a suspended
    call resumes, every state it writes, success or error, stores the
    [staleTime] of that call, and the state it leaves for the key stores it
    too, also after a failure.  The freshness check reads the stored value:
    with a success state whose age is below the stored [staleTime] the call
    is served from the cache whatever [s] is, and with an age at or above
    the stored [staleTime] it is not, whatever [s] is: the state is
    rewritten to loading with [s]. *)
Theorem staleTime_of_last_writer_governs
    (key : string) (fn : Fn) (options : option Z) (now : Z) (w : World) :
  let s := default 0%Z options in
  let w' := (fetchQuery key fn options now w).1 in
  let p := (fetchQuery key fn options now w).2 in
  (cacheHit (queries w !! key) now = None →
   status <$> queries w !! key ≠ Some Status.loading →
     queries w' !! key = Some (loadingState (queries w !! key) s) ∧
     staleTime (loadingState (queries w !! key) s) = s ∧
     (Forall (λ l, ¬ throwing l) (registered key w) →
        awaiting w' !! p = Some (mkFrame key fn (queries w !! key) s))) ∧
  (∀ w2 p2 fr outcome now2, awaiting w2 !! p2 = Some fr →
     let w3 := resumeFetch p2 outcome now2 w2 in
     (∃ st, queries w3 !! f_key fr = Some st ∧ staleTime st = f_staleTime fr ∧
            (∀ thrown, outcome = Rejects thrown → status st = Status.error)) ∧
     (∀ k st, EvSet k st ∈ new_events w2 w3 →
        k = f_key fr ∧ staleTime st = f_staleTime fr)) ∧
  (∀ q, queries w !! key = Some q → status q = Status.success →
     ((now - lastFetchedAt q < staleTime q)%Z →
        promises w' !! p = Some (Fulfilled (data q)) ∧ queries w' = queries w) ∧
     ((staleTime q ≤ now - lastFetchedAt q)%Z →
        queries w' !! key = Some (loadingState (Some q) s))).
Proof.
  simpl. split_and!.
  - intros Hh Hl.
    destruct (fetchQuery_fetch_fields key fn options now w Hh Hl) as (Hp & Hq & _ & Hrest).
    split_and!; [by rewrite Hq, lookup_insert_eq|done|].
    intros Hall%first_throw_None_Forall. rewrite Hall in Hrest.
    destruct Hrest as [Ha _]. by rewrite Hp, Ha, lookup_insert_eq.
  - intros w2 p2 fr outcome now2 Hfr.
    destruct (resumeFetch_writes p2 fr outcome now2 w2 Hfr) as (_ & (st & Hq & Hs & _ & Hrej) & Hsets).
    split.
    + exists st. split_and!; [done..|]. intros thrown ->.
      by rewrite (Hrej thrown eq_refl).
    + intros k st' Hin. destruct (Hsets k st' Hin) as (-> & ? & _). done.
  - intros q Hq Hs. split.
    + intros Hlt.
      assert (H : cacheHit (queries w !! key) now = Some (data q)).
      { apply cacheHit_Some. eauto 6. }
      rewrite (fetchQuery_hit _ fn options _ _ _ H). simpl.
      by rewrite list_lookup_middle.
    + intros Hge.
      assert (Hh : cacheHit (queries w !! key) now = None).
      { destruct (cacheHit (queries w !! key) now) as [v|] eqn:E; [|done].
        apply cacheHit_Some in E as (q' & Hq' & _ & Hlt & _).
        assert (q' = q) by congruence. subst. lia. }
      assert (Hl : status <$> queries w !! key ≠ Some Status.loading).
      { rewrite Hq. simpl. congruence. }
      destruct (fetchQuery_fetch_fields key fn options now w Hh Hl) as (_ & Hqs & _).
      by rewrite Hqs, lookup_insert_eq, Hq.
Qed.

Lemma staleTime_of_last_writer_governs_witness :
  let w := run [OpFetchQuery "a" 1 None 0; OpSettle 0 (Resolves (JNum 5)) 1000] newClient in
  let q := mkQueryState (JNum 5) Status.success None 1000 0 in
  queries w !! "a" = Some q ∧
  (staleTime q ≤ 1001 - lastFetchedAt q)%Z ∧
  queries (fetchQuery "a" 2 (Some 10000%Z) 1001 w).1 !! "a"
    = Some (mkQueryState (JNum 5) Status.loading None 1000 10000).
Proof.
  pose proof (staleTime_of_last_writer_governs "a" 2 (Some 10000%Z) 1001
    (run [OpFetchQuery "a" 1 None 0; OpSettle 0 (Resolves (JNum 5)) 1000] newClient))
    as (_ & _ & H).
  assert (Hge : (0 ≤ 1001 - 1000)%Z) by (intros [=]).
  split_and!; [reflexivity|exact Hge|].
  exact (proj2 (H (mkQueryState (JNum 5) Status.success None 1000 0) eq_refl eq_refl) Hge).
Defined.

(** ** C5: a fetch that succeeds *)

Lemma suspended_promise w p fr :
  wf w → awaiting w !! p = Some fr →
  let w0 := with_awaiting (delete p (awaiting w)) w in
  promises w0 !! p = Some Pending ∧ unowned w0 p.
Proof.
  intros Hwf Hfr. simpl. split; [by eapply wf_frame|].
  split; [simpl; by rewrite lookup_delete_eq|].
  intros k k' Hin. destruct (wf_waiter w Hwf _ _ _ Hin) as (_ & _ & Hn). congruence.
Qed.

Lemma fetchQuery_fetch_promise key fn options now w :
  wf w →
  cacheHit (queries w !! key) now = None →
  status <$> queries w !! key ≠ Some Status.loading →
  promises (fetchQuery key fn options now w).1 !! length (promises w) =
    Some (match first_throw (registered key w) with
          | Some thrown => Rejected thrown
          | None => Pending
          end).
Proof.
  intros Hwf Hh Hl. rewrite (fetchQuery_fetch _ fn options _ _ Hh Hl). simpl.
  set (st := loadingState _ _).
  destruct (entered_fresh key fn w Hwf) as [Hp0 [_ Hfree]].
  pose proof (setQueryState_fields key st (entered key fn w)) as (_ & _ & _ & _ & Hx).
  pose proof (setQueryState_promises_other key st (entered key fn w)
                (length (promises w)) (λ k, Hfree key k)) as Hp1.
  rewrite Hp0 in Hp1.
  change (registered key (entered key fn w)) with (registered key w) in *.
  destruct (setQueryState key st (entered key fn w)) as [w1 [thrown|]]; simpl in *;
    rewrite <- Hx; [|done].
  unfold reject. rewrite settle_promises. by rewrite decide_True.
Qed.

(** C5, the claim as stated, fails: a listener of the key that throws while
    it is notified of the success state makes the [try] block fail after the
    state was written.  The [catch] block then writes an error state, and
    the call is rejected instead of returning the value. *)
Lemma success_lost_when_listener_throws :
  let w := run [OpFetchQuery "a" 1 (Some 5%Z) 0;
                OpSubscribe "a" 7 (Throws (JStr "oops"))] newClient in
  let w' := resumeFetch 0 (Resolves (JNum 42)) 1000 w in
  awaiting w !! 0%nat = Some (mkFrame "a" 1 None 5) ∧
  promises w' !! 0%nat = Some (Rejected (JStr "oops")) ∧
  queries w' !! "a"
    = Some (mkQueryState JUndefined Status.error (Some (mkError "oops")) 0 5) ∧
  omap (λ e, match e with EvSet _ st => Some (status st) | _ => None end) (new_events w w')
    = [Status.success; Status.error].
Proof. vm_compute. split_and!; reflexivity. Qed.

(** C5, amended: a call [fetchQuery(key, fn, {staleTime: s})] that takes the
    fetch path, with no throwing listener registered for [key], invokes [fn]
    once and is suspended with its promise pending.  When [fn] then resolves
    with [v] at time [now2], in whatever state [w2] the client has reached
    by then, and provided no listener registered for [key] throws, the call
    writes the state (data [v], status success, error null, lastFetchedAt
    [now2], staleTime [s]) through one [setQueryState], which notifies the
    listeners of [key] once, and its promise is fulfilled with [v]. *)
Theorem fetch_success_writes_state_and_returns
    (key : string) (fn : Fn) (options : option Z) (now : Z) (w : World) :
  reachable w →
  cacheHit (queries w !! key) now = None →
  status <$> queries w !! key ≠ Some Status.loading →
  Forall (λ l, ¬ throwing l) (registered key w) →
  let s := default 0%Z options in
  let w1 := (fetchQuery key fn options now w).1 in
  let p := (fetchQuery key fn options now w).2 in
  let fr := mkFrame key fn (queries w !! key) s in
  awaiting w1 !! p = Some fr ∧
  fetches w w1 = [(key, fn)] ∧
  promises w1 !! p = Some Pending ∧
  ∀ w2 v now2,
    reachable w2 → awaiting w2 !! p = Some fr →
    Forall (λ l, ¬ throwing l) (registered key w2) →
    let w3 := resumeFetch p (Resolves v) now2 w2 in
    let st := mkQueryState v Status.success None now2 s in
    queries w3 !! key = Some st ∧
    new_events w2 w3 = EvSet key st :: EvNotify key :: (EvCall <$> registered key w2) ∧
    promises w3 !! p = Some (Fulfilled v) ∧
    awaiting w3 !! p = None.
Proof.
  intros Hreach Hh Hl Hall. simpl.
  pose proof (reachable_wf w Hreach) as Hwf.
  apply first_throw_None_Forall in Hall.
  destruct (fetchQuery_fetch_fields key fn options now w Hh Hl) as (Hp & Hq & _ & Hrest).
  pose proof (fetchQuery_fetch_promise key fn options now w Hwf Hh Hl) as Hprom.
  rewrite Hall in Hrest, Hprom. destruct Hrest as [Ha Ht]. rewrite Hp.
  split_and!.
  - by rewrite Ha, lookup_insert_eq.
  - unfold fetches. rewrite (new_events_app _ _ _ Ht). apply omap_fetch_of_fetch_path.
  - done.
  - intros w2 v now2 Hreach2 Hfr Hall2.
    pose proof (reachable_wf w2 Hreach2) as Hwf2.
    apply first_throw_None_Forall in Hall2.
    destruct (suspended_promise w2 _ _ Hwf2 Hfr) as [Hp0 [Hn0 Hfree0]].
    rewrite (resumeFetch_resolves _ _ _ _ _ Hfr). simpl.
    set (w0 := with_awaiting (delete (length (promises w)) (awaiting w2)) w2) in *.
    set (st := successState v now2 (default 0%Z options)).
    pose proof (setQueryState_fields key st w0) as (Hq1 & _ & Ha1 & Ht1 & Hx1).
    pose proof (setQueryState_promises_other key st w0 (length (promises w))
                  (λ k, Hfree0 key k)) as Hp1.
    change (registered key w0) with (registered key w2) in *.
    rewrite Hall2 in Hx1. rewrite (first_throw_None _ Hall2) in Ht1.
    destruct (setQueryState key st w0) as [w1 [thrown|]]; simpl in *; [done|].
    unfold resolve.
    pose proof (settle_fields (length (promises w)) (Fulfilled v) w1)
      as (Sq & _ & _ & Sa & St).
    split_and!.
    + by rewrite Sq, Hq1, lookup_insert_eq.
    + apply new_events_app. by rewrite St, Ht1.
    + rewrite settle_promises, decide_True; [done|]. by rewrite Hp1.
    + by rewrite Sa, Ha1.
Qed.

Lemma fetch_success_writes_state_and_returns_witness :
  let w1 := (fetchQuery "a" 1 (Some 5%Z) 0 newClient).1 in
  let w3 := resumeFetch 0 (Resolves (JNum 42)) 1000 w1 in
  reachable newClient ∧ reachable w1 ∧
  queries w3 !! "a" = Some (mkQueryState (JNum 42) Status.success None 1000 5) ∧
  promises w3 !! 0%nat = Some (Fulfilled (JNum 42)).
Proof.
  assert (R0 : reachable newClient) by (by exists []).
  assert (R1 : reachable (fetchQuery "a" 1 (Some 5%Z) 0 newClient).1)
    by (by exists [OpFetchQuery "a" 1 (Some 5%Z) 0]).
  pose proof (fetch_success_writes_state_and_returns "a" 1 (Some 5%Z) 0 newClient
                R0 eq_refl ltac:(discriminate) ltac:(constructor)) as (_ & _ & _ & H).
  specialize (H (fetchQuery "a" 1 (Some 5%Z) 0 newClient).1 (JNum 42) 1000%Z
                R1 eq_refl ltac:(constructor)) as (H1 & _ & H3 & _).
  split_and!; [exact R0|exact R1|exact H1|exact H3].
Defined.

(** ** C4: a fetch that fails *)

Lemma or_zero_id n : or_zero n = n.
Proof. unfold or_zero. destruct (Z.eqb_spec n 0); congruence. Qed.

(** C4, the claim as stated, fails: when a listener of the key throws while
    it is notified of the error state, that exception leaves the [catch]
    block before [throw err] is reached, and the call is rejected with the
    listener's value, here the string "oops", not with the normalized
    failure of the fetch function. *)
Lemma failure_replaced_when_listener_throws :
  let w := run [OpFetchQuery "a" 1 None 0;
                OpSubscribe "a" 7 (Throws (JStr "oops"))] newClient in
  let w' := resumeFetch 0 (Rejects (JStr "boom")) 1000 w in
  awaiting w !! 0%nat = Some (mkFrame "a" 1 None 0) ∧
  promises w' !! 0%nat = Some (Rejected (JStr "oops")) ∧
  promises w' !! 0%nat ≠ Some (Rejected (JError (normalizeError (JStr "boom")))) ∧
  queries w' !! "a"
    = Some (mkQueryState JUndefined Status.error (Some (mkError "boom")) 0 0).
Proof. vm_compute. split_and!; try reflexivity. discriminate. Qed.

Lemma fetch_path_suspends key fn options now w :
  wf w →
  cacheHit (queries w !! key) now = None →
  status <$> queries w !! key ≠ Some Status.loading →
  Forall (λ l, ¬ throwing l) (registered key w) →
  let w1 := (fetchQuery key fn options now w).1 in
  let p := (fetchQuery key fn options now w).2 in
  p = length (promises w) ∧
  awaiting w1 !! p = Some (mkFrame key fn (queries w !! key) (default 0%Z options)) ∧
  fetches w w1 = [(key, fn)] ∧
  promises w1 !! p = Some Pending.
Proof.
  intros Hwf Hh Hl Hall. simpl.
  apply first_throw_None_Forall in Hall.
  destruct (fetchQuery_fetch_fields key fn options now w Hh Hl) as (Hp & Hq & _ & Hrest).
  pose proof (fetchQuery_fetch_promise key fn options now w Hwf Hh Hl) as Hprom.
  rewrite Hall in Hrest, Hprom. destruct Hrest as [Ha Ht]. rewrite Hp.
  split_and!; [done| | |done].
  - by rewrite Ha, lookup_insert_eq.
  - unfold fetches. rewrite (new_events_app _ _ _ Ht). apply omap_fetch_of_fetch_path.
Qed.

Lemma resumeFetch_failure p fr thrown now w :
  wf w → awaiting w !! p = Some fr →
  let w' := resumeFetch p (Rejects thrown) now w in
  queries w' !! f_key fr
    = Some (errorState (f_existingQuery fr) (normalizeError thrown) (f_staleTime fr)) ∧
  promises w' !! p = Some (Rejected match first_throw (registered (f_key fr) w) with
                                    | Some thrown' => thrown'
                                    | None => JError (normalizeError thrown)
                                    end).
Proof.
  intros Hwf Hfr. simpl.
  destruct (suspended_promise w _ _ Hwf Hfr) as [Hp0 [Hn0 Hfree0]].
  rewrite (resumeFetch_rejects _ _ _ _ _ Hfr).
  set (w0 := with_awaiting (delete p (awaiting w)) w) in *.
  pose proof (catchBlock_fields p fr thrown w0) as (Hq & _ & _). simpl in Hq.
  pose proof (catchBlock_promise p fr thrown w0 (λ k, Hfree0 (f_key fr) k) Hp0) as Hp.
  change (registered (f_key fr) w0) with (registered (f_key fr) w) in *.
  split; [|exact Hp]. by rewrite Hq, lookup_insert_eq.
Qed.

(** C4, amended: a call [fetchQuery(key, fn, {staleTime: s})] that takes the
    fetch path, with no throwing listener registered for [key], invokes [fn]
    and is suspended.  When [fn] then fails with the thrown value [thrown],
    in whatever state [w2] the client has reached by then, the state stored
    for [key] afterwards has status error, error = the failure normalized to
    an Error object, data = the data [key] had when the call started (absent
    when it had no state), lastFetchedAt = the one it had then (0 when it
    had no state) and staleTime [s].  An Error value is kept as it is and
    any other value [v] becomes an Error with message [String(v)].  The call
    is rejected with that Error provided no listener registered for [key]
    throws while it is notified of the error state; if one does, the call is
    rejected with what the first such listener throws. *)
Theorem fetch_failure_writes_error_state
    (key : string) (fn : Fn) (options : option Z) (now : Z) (w : World) :
  reachable w →
  cacheHit (queries w !! key) now = None →
  status <$> queries w !! key ≠ Some Status.loading →
  Forall (λ l, ¬ throwing l) (registered key w) →
  let s := default 0%Z options in
  let w1 := (fetchQuery key fn options now w).1 in
  let p := (fetchQuery key fn options now w).2 in
  let fr := mkFrame key fn (queries w !! key) s in
  awaiting w1 !! p = Some fr ∧
  fetches w w1 = [(key, fn)] ∧
  ∀ w2 thrown now2,
    reachable w2 → awaiting w2 !! p = Some fr →
    let w3 := resumeFetch p (Rejects thrown) now2 w2 in
    let err := normalizeError thrown in
    (∃ st, queries w3 !! key = Some st ∧
           status st = Status.error ∧ error st = Some err ∧ staleTime st = s ∧
           data st = match queries w !! key with
                     | Some q => data q
                     | None => JUndefined
                     end ∧
           lastFetchedAt st = match queries w !! key with
                              | Some q => lastFetchedAt q
                              | None => 0%Z
                              end) ∧
    promises w3 !! p = Some (Rejected match first_throw (registered key w2) with
                                      | Some thrown' => thrown'
                                      | None => JError err
                                      end) ∧
    (Forall (λ l, ¬ throwing l) (registered key w2) →
       promises w3 !! p = Some (Rejected (JError err))) ∧
    (∀ e, thrown = JError e → err = e) ∧
    ((∀ e, thrown ≠ JError e) → message err = String_ thrown) ∧
    message (normalizeError (JStr "boom")) = "boom".
Proof.
  intros Hreach Hh Hl Hall. simpl.
  pose proof (reachable_wf w Hreach) as Hwf.
  destruct (fetch_path_suspends key fn options now w Hwf Hh Hl Hall) as (Hp & Ha & Hf & _).
  split_and!; [done..|].
  intros w2 thrown now2 Hreach2 Hfr.
  pose proof (reachable_wf w2 Hreach2) as Hwf2.
  destruct (resumeFetch_failure _ _ thrown now2 w2 Hwf2 Hfr) as [Hq Hprom].
  simpl in Hq, Hprom.
  split_and!.
  - eexists. split; [exact Hq|]. simpl. split_and!; try done.
    destruct (queries w !! key) as [q|]; simpl; [|done]. apply or_zero_id.
  - exact Hprom.
  - intros Hall2%first_throw_None_Forall. by rewrite Hprom, Hall2.
  - by intros e ->.
  - intros Hne. destruct thrown; try done. by destruct (Hne e).
  - done.
Qed.

Lemma fetch_failure_writes_error_state_witness :
  let w := run [OpFetchQuery "a" 1 (Some 10%Z) 0; OpSettle 0 (Resolves (JNum 5)) 3] newClient in
  let w2 := (fetchQuery "a" 1 (Some 10%Z) 50 w).1 in
  let w3 := resumeFetch 1 (Rejects (JStr "boom")) 60 w2 in
  reachable w ∧ reachable w2 ∧
  Forall (λ l, ¬ throwing l) (registered "a" w) ∧
  Forall (λ l, ¬ throwing l) (registered "a" w2) ∧
  promises w3 !! 1%nat = Some (Rejected (JError (mkError "boom"))).
Proof.
  intros w w2 w3.
  assert (R : reachable w) by (by eexists).
  assert (R2 : reachable w2)
    by (by exists [OpFetchQuery "a" 1 (Some 10%Z) 0; OpSettle 0 (Resolves (JNum 5)) 3;
                   OpFetchQuery "a" 1 (Some 10%Z) 50]).
  assert (Hall : Forall (λ l, ¬ throwing l) (registered "a" w)) by constructor.
  assert (Hall2 : Forall (λ l, ¬ throwing l) (registered "a" w2)) by constructor.
  assert (Hh : cacheHit (queries w !! "a") 50 = None) by (vm_compute; reflexivity).
  assert (Hl : status <$> queries w !! "a" ≠ Some Status.loading)
    by (vm_compute; discriminate).
  pose proof (fetch_failure_writes_error_state "a" 1 (Some 10%Z) 50 w R Hh Hl Hall)
    as (Hfr & _ & H).
  specialize (H w2 (JStr "boom") 60%Z R2 Hfr) as (_ & _ & H & _).
  split_and!; [exact R|exact R2|exact Hall|exact Hall2|exact (H Hall2)].
Defined.

(** The scenario of the spec: a fetch function that rejects with "boom". *)
Example boom_scenario :
  let w := run [OpFetchQuery "k" 1 None 0; OpSettle 0 (Rejects (JStr "boom")) 1] newClient in
  promises w !! 0%nat = Some (Rejected (JError (mkError "boom"))) ∧
  (status <$> getQueryState "k" w) = Some Status.error ∧
  (error <$> getQueryState "k" w) = Some (Some (mkError "boom")).
Proof. vm_compute. split_and!; reflexivity. Qed.

(** Stale data survives a failed refetch. *)
Example stale_data_survives_failure :
  let w := run [OpFetchQuery "k" 1 None 0; OpSettle 0 (Resolves (JNum 5)) 3;
                OpFetchQuery "k" 1 None 4; OpSettle 1 (Rejects (JNum (-12))) 9] newClient in
  getQueryState "k" w
  = Some (mkQueryState (JNum 5) Status.error (Some (mkError "-12")) 3 0).
Proof. vm_compute. reflexivity. Qed.

(** ** Waiters during the notification of a settled state *)

Lemma forEach_waiter_settles ls key st p : ∀ w,
  queries w !! key = Some st →
  status st = Status.success ∨ status st = Status.error →
  (∀ k' p', DedupWaiter k' p' ∈ ls → k' = key) →
  DedupWaiter key p ∈ upto_first_throw ls →
  promises w !! p = Some Pending →
  promises (forEach ls w).1 !! p = Some (waiter_outcome st) ∧
  DedupWaiter key p ∉ registered key (forEach ls w).1.
Proof.
  assert (Hsettled : waiter_outcome st ≠ Pending ∨
                     ¬ (status st = Status.success ∨ status st = Status.error)).
  { unfold waiter_outcome. destruct (status st); naive_solver. }
  induction ls as [|l rest IH]; intros w Hq Hst Hkeys Hin Hp.
  { by apply not_elem_of_nil in Hin. }
  destruct Hsettled as [Hsettled|]; [|done].
  simpl in Hin. simpl.
  pose proof (callListener_fields l w) as (Hq1 & _).
  destruct (decide (l = DedupWaiter key p)) as [->|Hne].
  - rewrite callListener_waiter. rewrite Hq. simpl.
    rewrite decide_False by (destruct Hst as [-> | ->]; done).
    set (w1 := settle p _ _).
    assert (Hp1 : promises w1 !! p = Some (waiter_outcome st)).
    { unfold w1. rewrite settle_promises, decide_True; [done|].
      by rewrite (unsubscribe_promises _ _ _). }
    assert (Hr1 : DedupWaiter key p ∉ registered key w1).
    { unfold w1, registered. rewrite (settle_listeners _ _ _).
      intros [_ Hc]%registered_unsubscribe. by apply Hc. }
    split; [by apply forEach_settled|].
    intros Hc%forEach_shrinks. by apply Hr1.
  - assert (Hthrow : ¬ throwing l).
    { intros Ht. rewrite decide_True in Hin by done.
      apply list_elem_of_singleton in Hin. congruence. }
    rewrite decide_False in Hin by done.
    apply elem_of_cons in Hin as [Hin|Hin]; [congruence|].
    pose proof (callListener_throws l w) as Hx.
    assert (Hp1 : promises (callListener l w).1 !! p = Some Pending).
    { destruct (callListener_promises l w p) as [->|(k & st' & -> & _)]; [done|].
      destruct Hne. f_equal. apply (Hkeys k p). by left. }
    destruct (callListener l w) as [w' [thrown|]]; simpl in *.
    + destruct l as [id [|v]|k p']; simpl in *; done.
    + apply IH; try done.
      * by rewrite Hq1.
      * intros k' p' Hin'. apply (Hkeys k' p'). by right.
Qed.

Lemma upto_first_throw_subseteq ls l : l ∈ upto_first_throw ls → l ∈ ls.
Proof.
  induction ls as [|x ls IH]; [done|]. simpl.
  case_decide.
  - intros ->%list_elem_of_singleton. by left.
  - intros [->|Hin]%elem_of_cons; [by left|right; auto].
Qed.

Lemma setQueryState_waiter key st w p :
  wf w →
  status st = Status.success ∨ status st = Status.error →
  DedupWaiter key p ∈ upto_first_throw (registered key w) →
  promises (setQueryState key st w).1 !! p = Some (waiter_outcome st) ∧
  DedupWaiter key p ∉ registered key (setQueryState key st w).1.
Proof.
  intros Hwf Hst Hin.
  pose proof (upto_first_throw_subseteq _ _ Hin) as Hreg.
  destruct (wf_waiter w Hwf _ _ _ Hreg) as (_ & Hp & _).
  unfold setQueryState, notify. simpl.
  unfold registered in Hin, Hreg.
  destruct (listeners w !! key) as [ls|] eqn:E; simpl in *.
  2: { by apply not_elem_of_nil in Hin. }
  apply forEach_waiter_settles; try done.
  - simpl. by rewrite lookup_insert_eq.
  - intros k' p' Hin'. eapply (wf_waiter w Hwf key k' p').
    unfold registered. by rewrite E.
Qed.

Lemma setQueryState_settled key st w p s :
  promises w !! p = Some s → s ≠ Pending →
  promises (setQueryState key st w).1 !! p = Some s.
Proof.
  intros Hp Hs. unfold setQueryState, notify. simpl.
  destruct (listeners w !! key) as [ls|]; [|done].
  by apply forEach_settled.
Qed.

Lemma settle_settled p0 s0 w p s :
  promises w !! p = Some s → s ≠ Pending → promises (settle p0 s0 w) !! p = Some s.
Proof.
  intros Hp Hs. rewrite settle_promises, decide_False; [done|].
  intros [-> Hp']. congruence.
Qed.

Lemma settle_registered p s w key : registered key (settle p s w) = registered key w.
Proof. unfold registered. by rewrite (settle_listeners p s w). Qed.

Lemma catchBlock_settled p0 fr thrown w p s :
  promises w !! p = Some s → s ≠ Pending →
  promises (catchBlock p0 fr thrown w) !! p = Some s.
Proof.
  intros Hp Hs. unfold catchBlock. set (st := errorState _ _ _).
  pose proof (setQueryState_settled (f_key fr) st w p s Hp Hs) as H1.
  destruct (setQueryState (f_key fr) st w) as [w1 [thrown'|]]; simpl in *;
    by apply settle_settled.
Qed.

Lemma catchBlock_shrinks p0 fr thrown w key l :
  l ∈ registered key (catchBlock p0 fr thrown w) → l ∈ registered key w.
Proof.
  unfold catchBlock. set (st := errorState _ _ _).
  pose proof (setQueryState_shrinks (f_key fr) st w key l) as H1.
  destruct (setQueryState (f_key fr) st w) as [w1 [thrown'|]]; simpl in *;
    unfold reject; by rewrite settle_registered.
Qed.

Lemma catchBlock_waiter p0 fr thrown w p :
  wf w →
  DedupWaiter (f_key fr) p ∈ upto_first_throw (registered (f_key fr) w) →
  promises (catchBlock p0 fr thrown w) !! p
    = Some (Rejected (JError (normalizeError thrown))) ∧
  DedupWaiter (f_key fr) p ∉ registered (f_key fr) (catchBlock p0 fr thrown w).
Proof.
  intros Hwf Hin. unfold catchBlock. set (st := errorState _ _ _).
  destruct (setQueryState_waiter (f_key fr) st w p Hwf (or_intror eq_refl) Hin)
    as [Hp Hr].
  destruct (setQueryState (f_key fr) st w) as [w1 [thrown'|]]; simpl in *;
    unfold reject; rewrite settle_registered; (split; [|done]);
    by apply settle_settled.
Qed.

(** A waiter that the notification reaches gets the outcome of the fetch. *)
Lemma resumeFetch_waiter p1 fr outcome now w p :
  wf w → awaiting w !! p1 = Some fr →
  DedupWaiter (f_key fr) p ∈ upto_first_throw (registered (f_key fr) w) →
  promises (resumeFetch p1 outcome now w) !! p = Some (fetch_outcome outcome) ∧
  DedupWaiter (f_key fr) p ∉ registered (f_key fr) (resumeFetch p1 outcome now w).
Proof.
  intros Hwf Hfr Hin.
  pose proof (wf_del_frame p1 w Hwf) as Hwf0.
  set (w0 := with_awaiting (delete p1 (awaiting w)) w) in *.
  change (registered (f_key fr) w) with (registered (f_key fr) w0) in Hin.
  destruct outcome as [result|thrown].
  - rewrite (resumeFetch_resolves _ _ _ _ _ Hfr). fold w0.
    set (st := successState result now (f_staleTime fr)).
    destruct (setQueryState_waiter (f_key fr) st w0 p Hwf0 (or_introl eq_refl) Hin)
      as [Hp Hr].
    destruct (setQueryState (f_key fr) st w0) as [w1 [thrown|]]; simpl in *.
    + split; [by apply catchBlock_settled|].
      by intros Hc%catchBlock_shrinks.
    + unfold resolve. rewrite settle_registered. split; [|done].
      by apply settle_settled.
  - rewrite (resumeFetch_rejects _ _ _ _ _ Hfr). fold w0.
    by apply catchBlock_waiter.
Qed.

(** The promise of the fetching call itself, when no listener throws. *)
Lemma resumeFetch_own_promise p fr outcome now w :
  wf w → awaiting w !! p = Some fr →
  first_throw (registered (f_key fr) w) = None →
  promises (resumeFetch p outcome now w) !! p = Some (fetch_outcome outcome).
Proof.
  intros Hwf Hfr Hno.
  destruct (suspended_promise w _ _ Hwf Hfr) as [Hp0 [Hn0 Hfree0]].
  set (w0 := with_awaiting (delete p (awaiting w)) w) in *.
  change (registered (f_key fr) w) with (registered (f_key fr) w0) in Hno.
  destruct outcome as [result|thrown].
  - rewrite (resumeFetch_resolves _ _ _ _ _ Hfr). fold w0.
    set (st := successState result now (f_staleTime fr)).
    pose proof (setQueryState_fields (f_key fr) st w0) as (_ & _ & _ & _ & Hx).
    pose proof (setQueryState_promises_other (f_key fr) st w0 p
                  (λ k, Hfree0 (f_key fr) k)) as Hp1.
    rewrite Hno in Hx.
    destruct (setQueryState (f_key fr) st w0) as [w1 [thrown|]]; simpl in *; [done|].
    unfold resolve. rewrite settle_promises, decide_True; [done|]. by rewrite Hp1.
  - rewrite (resumeFetch_rejects _ _ _ _ _ Hfr). fold w0.
    rewrite (catchBlock_promise p fr thrown w0 (λ k, Hfree0 (f_key fr) k) Hp0).
    by rewrite Hno.
Qed.

(** ** C1: joining a fetch in flight *)

Lemma fetchQuery_dedup_fields key fn options now w q :
  queries w !! key = Some q → status q = Status.loading →
  let w1 := (fetchQuery key fn options now w).1 in
  let p := length (promises w) in
  (fetchQuery key fn options now w).2 = p ∧
  trace w1 = trace w ∧ queries w1 = queries w ∧ awaiting w1 = awaiting w ∧
  promises w1 = promises w ++ [Pending] ∧
  (∀ l, l ∈ registered key w1 ↔ l ∈ registered key w ∨ l = DedupWaiter key p).
Proof.
  intros Hq Hs. rewrite (fetchQuery_dedup _ fn options now _ _ Hq Hs). simpl.
  split_and!; try done.
  intros l.
  change (with_listeners _ _) with
    (subscribe key (DedupWaiter key (length (promises w))) (entered key fn w)).1.
  rewrite registered_subscribe. naive_solver.
Qed.




(** ** C3: one fetch in flight per key *)

Lemma resumeFetch_queries_other p fr outcome now w k :
  awaiting w !! p = Some fr → k ≠ f_key fr →
  queries (resumeFetch p outcome now w) !! k = queries w !! k.
Proof.
  intros Hfr Hk. set (w0 := with_awaiting (delete p (awaiting w)) w).
  destruct outcome as [result|thrown].
  - rewrite (resumeFetch_resolves _ _ _ _ _ Hfr). fold w0.
    set (st := successState result now (f_staleTime fr)).
    pose proof (setQueryState_fields (f_key fr) st w0) as (Hq & _).
    destruct (setQueryState (f_key fr) st w0) as [w1 [thrown|]]; simpl in *.
    + rewrite (catchBlock_queries p fr thrown w1), Hq.
      by rewrite !lookup_insert_ne.
    + unfold resolve. rewrite (settle_queries _ _ _), Hq.
      by rewrite lookup_insert_ne.
  - rewrite (resumeFetch_rejects _ _ _ _ _ Hfr). fold w0.
    rewrite (catchBlock_queries p fr thrown w0).
    by rewrite lookup_insert_ne.
Qed.

Lemma single_flight_fetchQuery key fn options now w :
  single_flight w → single_flight (fetchQuery key fn options now w).1.
Proof.
  intros [J1 J2].
  destruct (fetchQuery_cases key now w) as [[v Hh]|[(q & Hq & Hs)|[Hh Hl]]].
  - by rewrite (fetchQuery_hit _ fn options _ _ _ Hh).
  - by rewrite (fetchQuery_dedup _ fn options now _ _ Hq Hs).
  - destruct (fetchQuery_fetch_fields key fn options now w Hh Hl) as (_ & Hqs & _ & Hrest).
    assert (Hold : ∀ p fr, awaiting w !! p = Some fr → f_key fr ≠ key).
    { intros p fr Hfr <-. by apply Hl, (J1 p). }
    set (w1 := (fetchQuery key fn options now w).1) in *.
    destruct (first_throw (registered key w)) as [thrown|]; destruct Hrest as [Ha _].
    + split.
      * intros p fr. rewrite Ha, Hqs. intros Hfr.
        rewrite lookup_insert_ne by (symmetry; by eapply Hold). by eapply J1.
      * intros p1 p2 fr1 fr2. rewrite Ha. apply J2.
    + split.
      * intros p fr. rewrite Ha, Hqs, lookup_insert.
        case_decide; [intros [= <-]; simpl; by rewrite lookup_insert_eq|].
        intros Hfr. rewrite lookup_insert_ne by (symmetry; by eapply Hold).
        by eapply J1.
      * intros p1 p2 fr1 fr2. rewrite Ha, !lookup_insert.
        repeat case_decide; subst; try done.
        -- intros [= <-] Hfr2 Hk. simpl in Hk. symmetry in Hk. by apply Hold in Hfr2.
        -- intros Hfr1 [= <-] Hk. simpl in Hk. by apply Hold in Hfr1.
        -- apply J2.
Qed.

Lemma single_flight_resumeFetch p outcome now w :
  single_flight w → single_flight (resumeFetch p outcome now w).
Proof.
  intros [J1 J2].
  destruct (awaiting w !! p) as [fr|] eqn:Hfr.
  2: { unfold resumeFetch. by rewrite Hfr. }
  destruct (resumeFetch_writes p fr outcome now w Hfr) as (Ha & _).
  split.
  - intros p' fr'. rewrite Ha, lookup_delete. case_decide; [done|]. intros Hfr'.
    rewrite (resumeFetch_queries_other _ _ _ _ _ _ Hfr); [by eapply J1|].
    intros Hk. by apply (J2 _ _ _ _ Hfr' Hfr) in Hk.
  - intros p1 p2 fr1 fr2. rewrite Ha, !lookup_delete.
    repeat case_decide; try done. apply J2.
Qed.

(** Runs that never call [invalidateQuery] keep at most one fetch in flight
    per key: [fetchQuery] starts a fetch only for a key that is not loading,
    and a key with a suspended call is loading. *)
Lemma single_flight_without_invalidate ops : ∀ w,
  Forall not_invalidate ops → single_flight w → single_flight (run ops w).
Proof.
  induction ops as [|o ops IH]; intros w Hops J; [done|].
  inversion Hops as [|? ? Ho Hrest]; subst. simpl. apply IH; [done|].
  destruct o; simpl; try done.
  - destruct J as [J1 J2]. split.
    + intros p fr. rewrite (unsubscribe_queries _ _ _),
        (unsubscribe_awaiting _ _ _). apply J1.
    + intros p1 p2 fr1 fr2.
      rewrite (unsubscribe_awaiting _ _ _). apply J2.
  - by apply single_flight_fetchQuery.
  - by apply single_flight_resumeFetch.
Qed.

Lemma single_flight_newClient : single_flight newClient.
Proof. split; intros *; simpl; by rewrite lookup_empty. Qed.

(** C3 fails on the code.  [invalidateQuery] deletes the state of the key
    before it calls [fetchQuery], so the loading status that the
    deduplication check of line 202 looks for is gone: called while a fetch
    for the key is pending, it starts a second one.  After it two calls are
    suspended for the key, which no run without [invalidateQuery] allows. *)
Theorem invalidate_while_loading_starts_second_fetch :
  let w1 := run [OpFetchQuery "a" 1 None 0] newClient in
  let w2 := invalidateQuery "a" 1 w1 in
  status <$> queries w1 !! "a" = Some Status.loading ∧
  fetches newClient w1 = [("a", 1%nat)] ∧
  size (inFlight "a" w1) = 1%nat ∧
  fetches w1 w2 = [("a", 1%nat)] ∧
  size (inFlight "a" w2) = 2%nat ∧
  awaiting w2 !! 0%nat = Some (mkFrame "a" 1 None 0) ∧
  awaiting w2 !! 1%nat = Some (mkFrame "a" 1 None 0) ∧
  single_flight w1 ∧ ¬ single_flight w2.
Proof.
  split_and!; try (vm_compute; reflexivity).
  - apply (single_flight_without_invalidate [OpFetchQuery "a" 1 None 0]);
      [repeat constructor|apply single_flight_newClient].
  - intros [_ J2].
    assert (H : 0%nat = 1%nat); [|discriminate].
    apply (J2 0%nat 1%nat (mkFrame "a" 1 None 0) (mkFrame "a" 1 None 0));
      vm_compute; reflexivity.
Qed.

(** * Further properties of the client *)

(** ** Invariants of the listener map *)

Section ListenerMap.
Variable R : gmap string (list Listener) → Prop.
Hypothesis R_unsubscribe :
  ∀ key l w, R (listeners w) → R (listeners (unsubscribe key l w)).
Hypothesis R_waiter :
  ∀ key p w, R (listeners w) → R (listeners (subscribe key (DedupWaiter key p) w).1).

Lemma R_settle p s w : R (listeners w) → R (listeners (settle p s w)).
Proof. by rewrite settle_listeners. Qed.

Lemma R_callListener l w : R (listeners w) → R (listeners (callListener l w).1).
Proof.
  intros HR. destruct l as [id [|v]|key p]; try done.
  rewrite callListener_waiter. simpl.
  destruct (queries w !! key) as [st|]; [|done].
  case_decide; [done|]. simpl.
  apply R_settle. by apply (R_unsubscribe _ _ (record _ w)).
Qed.

Lemma R_forEach ls : ∀ w, R (listeners w) → R (listeners (forEach ls w).1).
Proof.
  induction ls as [|l rest IH]; intros w HR; [done|]. simpl.
  pose proof (R_callListener l w HR) as H1.
  destruct (callListener l w) as [w' [thrown|]]; simpl in *; [done|by apply IH].
Qed.

Lemma R_setQueryState key st w :
  R (listeners w) → R (listeners (setQueryState key st w).1).
Proof.
  intros HR. unfold setQueryState, notify. simpl.
  destruct (listeners w !! key) as [ls|]; [|done].
  by apply R_forEach.
Qed.

Lemma R_fetchQuery key fn options now w :
  R (listeners w) → R (listeners (fetchQuery key fn options now w).1).
Proof.
  intros HR.
  destruct (fetchQuery_cases key now w) as [[v Hh]|[(q & Hq & Hs)|[Hh Hl]]].
  - by rewrite (fetchQuery_hit _ fn options _ _ _ Hh).
  - rewrite (fetchQuery_dedup _ fn options now _ _ Hq Hs).
    by apply (R_waiter key (length (promises w)) (entered key fn w)).
  - rewrite (fetchQuery_fetch _ fn options _ _ Hh Hl). simpl.
    set (st := loadingState _ _).
    pose proof (R_setQueryState key st (entered key fn w) HR) as H1.
    destruct (setQueryState key st (entered key fn w)) as [w1 [thrown|]]; simpl in *;
      [by apply R_settle|done].
Qed.

Lemma R_catchBlock p fr thrown w :
  R (listeners w) → R (listeners (catchBlock p fr thrown w)).
Proof.
  intros HR. unfold catchBlock. set (st := errorState _ _ _).
  pose proof (R_setQueryState (f_key fr) st w HR) as H1.
  destruct (setQueryState (f_key fr) st w) as [w1 [thrown'|]]; simpl in *;
    by apply R_settle.
Qed.

Lemma R_resumeFetch p outcome now w :
  R (listeners w) → R (listeners (resumeFetch p outcome now w)).
Proof.
  intros HR. unfold resumeFetch.
  destruct (awaiting w !! p) as [fr|]; [|done].
  set (w0 := with_awaiting _ w).
  destruct outcome as [result|thrown]; [|by apply R_catchBlock].
  set (st := successState _ _ _).
  pose proof (R_setQueryState (f_key fr) st w0 HR) as H1.
  destruct (setQueryState (f_key fr) st w0) as [w1 [thrown|]]; simpl in *;
    [by apply R_catchBlock|by apply R_settle].
Qed.

Lemma R_invalidateQuery key now w :
  R (listeners w) → R (listeners (invalidateQuery key now w)).
Proof.
  intros HR. unfold invalidateQuery.
  destruct (queryFns w !! key) as [fn|]; [|done].
  destruct (queries w !! key) as [q|]; [|done].
  by apply R_fetchQuery.
Qed.

Lemma R_run ops : ∀ w,
  Forall (λ o, ∀ key id body w', o = OpSubscribe key id body → R (listeners w') →
               R (listeners (subscribe key (Callback id body) w').1)) ops →
  R (listeners w) → R (listeners (run ops w)).
Proof.
  induction ops as [|o ops IH]; intros w Hops HR; [done|].
  inversion Hops as [|? ? Ho Hrest]; subst. simpl. apply IH; [done|].
  destruct o; simpl.
  - by eapply Ho.
  - by apply R_unsubscribe.
  - by apply R_fetchQuery.
  - by apply R_invalidateQuery.
  - by apply R_resumeFetch.
Qed.
End ListenerMap.

Lemma NoDup_set_add l ls : NoDup ls → NoDup (set_add l ls).
Proof.
  intros Hnd. unfold set_add. case_decide; [done|].
  apply NoDup_app. split_and!; [done| |apply NoDup_singleton].
  intros x Hx ->%list_elem_of_singleton. done.
Qed.

Lemma set_add_nonempty l ls : set_add l ls ≠ [].
Proof.
  unfold set_add. case_decide as H.
  - intros ->. by apply not_elem_of_nil in H.
  - by destruct ls.
Qed.

Lemma registry_ok_subscribe key l w :
  registry_ok (listeners w) → registry_ok (listeners (subscribe key l w).1).
Proof.
  intros Hok k ls. rewrite subscribe_listeners.
  case_decide; [|apply Hok]. intros [= <-]. split; [apply set_add_nonempty|].
  apply NoDup_set_add. unfold registered.
  destruct (listeners w !! key) as [ls|] eqn:E; simpl; [by apply (Hok key)|constructor].
Qed.

Lemma registry_ok_unsubscribe key l w :
  registry_ok (listeners w) → registry_ok (listeners (unsubscribe key l w)).
Proof.
  intros Hok k ls. rewrite unsubscribe_listeners.
  case_decide; [|apply Hok].
  destruct (listeners w !! key) as [ls0|] eqn:E; [|done].
  case_decide; [done|]. intros [= <-]. split; [done|].
  apply NoDup_filter. by apply (Hok key).
Qed.

Lemma registry_ok_run ops : registry_ok (listeners (run ops newClient)).
Proof.
  apply (R_run registry_ok).
  - intros. by apply registry_ok_unsubscribe.
  - intros. by apply registry_ok_subscribe.
  - apply Forall_forall. intros o _ key id body w' _. apply registry_ok_subscribe.
  - intros k ls. simpl. by rewrite lookup_empty.
Qed.

(** ** Subscribing and unsubscribing *)

Lemma with_listeners_id w : with_listeners (listeners w) w = w.
Proof. by destruct w. Qed.

Lemma set_delete_absent l ls : l ∉ ls → set_delete l ls = ls.
Proof.
  intros Hl. unfold set_delete. induction ls as [|x ls IH]; [done|].
  rewrite filter_cons_True.
  - f_equal. apply IH. intros H. apply Hl. by right.
  - intros ->. apply Hl. by left.
Qed.

Lemma set_delete_set_add l ls : l ∉ ls → set_delete l (set_add l ls) = ls.
Proof.
  intros Hl. unfold set_add. rewrite decide_False by done.
  unfold set_delete. rewrite filter_app, filter_cons_False by (intros H; by apply H).
  rewrite filter_nil, app_nil_r. by apply set_delete_absent.
Qed.

Lemma upto_first_throw_prefix ls : upto_first_throw ls `prefix_of` ls.
Proof.
  induction ls as [|l ls IH]; [done|]. simpl. case_decide.
  - by exists ls.
  - by apply prefix_cons.
Qed.

(** X1.  Listener sets are sets: subscribing a listener that is already
    registered for the key leaves the client exactly as it is, and the
    unsubscribe function returned by that second [subscribe] removes the
    single registration, so the listener is no longer registered at all. *)
Theorem subscribe_again_is_noop (key : string) (l : Listener) (w : World) :
  l ∈ registered key w →
  (subscribe key l w).1 = w ∧
  l ∉ registered key ((subscribe key l w).2 (subscribe key l w).1).
Proof.
  intros Hin.
  assert (E : (subscribe key l w).1 = w).
  { unfold subscribe, registered in *. simpl.
    destruct (listeners w !! key) as [ls|] eqn:El; simpl in *.
    2: { by apply not_elem_of_nil in Hin. }
    rewrite El. simpl. unfold set_add. rewrite decide_True by done.
    rewrite insert_id by done. apply with_listeners_id. }
  split; [done|]. rewrite E. simpl.
  intros [_ Hne]%registered_unsubscribe. by apply Hne.
Qed.

Lemma subscribe_again_is_noop_witness :
  let w := run [OpSubscribe "a" 1 Returns; OpSubscribe "a" 2 Returns] newClient in
  Callback 1 Returns ∈ registered "a" w ∧
  (subscribe "a" (Callback 1 Returns) w).1 = w.
Proof.
  intros w.
  assert (H : Callback 1 Returns ∈ registered "a" w).
  { assert (E : registered "a" w = [Callback 1 Returns; Callback 2 Returns])
      by (vm_compute; reflexivity).
    rewrite E. apply list_elem_of_here. }
  split; [exact H|].
  exact (proj1 (subscribe_again_is_noop "a" (Callback 1 Returns) w H)).
Defined.

(** X2.  In every state the client reaches, subscribing a listener that is
    not yet registered for the key and then calling the unsubscribe function
    that [subscribe] returned gives back the very same client: the listener
    set of the key is restored, or discarded again when it did not exist. *)
Theorem subscribe_unsubscribe_round_trip (ops : list Op) (key : string) (l : Listener) :
  let w := run ops newClient in
  l ∉ registered key w →
  (subscribe key l w).2 (subscribe key l w).1 = w.
Proof.
  intros w Hl.
  pose proof (registry_ok_run ops) as Hok. fold w in Hok.
  unfold subscribe, registered in *. simpl. unfold unsubscribe. simpl.
  rewrite lookup_insert_eq.
  destruct (listeners w !! key) as [ls|] eqn:El; simpl in *.
  - rewrite El. simpl. rewrite set_delete_set_add by done.
    destruct (Hok key ls El) as [Hne _].
    destruct ls as [|x ls]; [done|]. simpl.
    unfold with_listeners. simpl.
    rewrite insert_insert_eq, insert_id by done. by destruct w.
  - rewrite lookup_insert_eq. simpl.
    rewrite set_delete_set_add by apply not_elem_of_nil. simpl.
    unfold with_listeners. simpl.
    rewrite delete_insert_eq, delete_insert_id by done. by destruct w.
Qed.

Lemma subscribe_unsubscribe_round_trip_witness :
  let w := run [OpSubscribe "a" 1 Returns; OpFetchQuery "a" 1 None 0] newClient in
  (Callback 2 Returns ∉ registered "a" w) ∧
  (subscribe "a" (Callback 2 Returns) w).2 (subscribe "a" (Callback 2 Returns) w).1 = w.
Proof.
  intros w.
  assert (H : Callback 2 Returns ∉ registered "a" w).
  { assert (E : registered "a" w = [Callback 1 Returns]) by (vm_compute; reflexivity).
    rewrite E. intros [=]%list_elem_of_singleton. }
  split; [exact H|].
  exact (subscribe_unsubscribe_round_trip
           [OpSubscribe "a" 1 Returns; OpFetchQuery "a" 1 None 0] "a" (Callback 2 Returns) H).
Defined.

(** X3.  In every state the client reaches, a listener set that exists is
    not empty (emptied sets are deleted) and lists no listener twice, and so
    one [notify] calls no listener more than once. *)
Theorem listener_sets_nonempty_without_duplicates
    (ops : list Op) (key : string) (ls : list Listener) :
  let w := run ops newClient in
  listeners w !! key = Some ls →
  ls ≠ [] ∧ NoDup ls ∧ NoDup (calls w (notify key w).1).
Proof.
  intros w Hls. destruct (registry_ok_run ops key ls Hls) as [Hne Hnd].
  split_and!; [done..|].
  pose proof (notify_fields key w) as (_ & _ & _ & Ht & _).
  unfold calls. rewrite (new_events_app _ _ _ Ht). cbn.
  rewrite omap_call_of_calls. unfold registered. rewrite Hls. simpl.
  destruct (upto_first_throw_prefix ls) as [k Hk].
  rewrite Hk in Hnd. by apply NoDup_app in Hnd as (? & _).
Qed.

Lemma listener_sets_nonempty_without_duplicates_witness :
  let ops := [OpSubscribe "a" 1 Returns; OpSubscribe "a" 1 Returns;
              OpFetchQuery "a" 1 None 0; OpFetchQuery "a" 1 None 0] in
  let w := run ops newClient in
  listeners w !! "a" = Some [Callback 1 Returns; DedupWaiter "a" 1] ∧
  NoDup (calls w (notify "a" w).1).
Proof.
  intros ops w.
  assert (H : listeners w !! "a" = Some [Callback 1 Returns; DedupWaiter "a" 1])
    by (vm_compute; reflexivity).
  destruct (listener_sets_nonempty_without_duplicates ops "a" _ H) as (_ & _ & Hc).
  split; [exact H|exact Hc].
Defined.

(** ** Keys do not interfere *)

Lemma callListener_listeners_other l w k' :
  (∀ k p, l = DedupWaiter k p → k ≠ k') →
  listeners (callListener l w).1 !! k' = listeners w !! k'.
Proof.
  intros Hk. destruct l as [id [|v]|k p]; try done.
  rewrite callListener_waiter. simpl.
  destruct (queries w !! k) as [st|]; [|done].
  case_decide; [done|]. simpl.
  rewrite settle_listeners, unsubscribe_listeners.
  rewrite decide_False; [done|]. intros ->. by eapply Hk.
Qed.

Lemma forEach_listeners_other ls k' : ∀ w,
  (∀ k p, DedupWaiter k p ∈ ls → k ≠ k') →
  listeners (forEach ls w).1 !! k' = listeners w !! k'.
Proof.
  induction ls as [|l rest IH]; intros w Hk; [done|]. simpl.
  assert (H1 : listeners (callListener l w).1 !! k' = listeners w !! k').
  { apply callListener_listeners_other. intros k p ->. apply (Hk k p). by left. }
  destruct (callListener l w) as [w' [thrown|]]; simpl in *; [done|].
  rewrite IH; [done|]. intros k p Hin. apply (Hk k p). by right.
Qed.

Lemma setQueryState_listeners_other key st w k' :
  wf w → k' ≠ key →
  listeners (setQueryState key st w).1 !! k' = listeners w !! k'.
Proof.
  intros Hwf Hne. unfold setQueryState, notify. simpl.
  destruct (listeners w !! key) as [ls|] eqn:E; [|done].
  rewrite forEach_listeners_other; [done|].
  intros k p Hin ->.
  destruct (wf_waiter w Hwf key k' p) as (-> & _); [|done].
  unfold registered. by rewrite E.
Qed.

Lemma calls_block_in key st ls w w' l :
  trace w' = trace w ++ EvSet key st :: EvNotify key :: (EvCall <$> ls) →
  l ∈ calls w w' → l ∈ ls.
Proof.
  intros Ht. unfold calls. rewrite (new_events_app _ _ _ Ht). cbn.
  by rewrite omap_call_of_calls.
Qed.

Lemma untouched_setQueryState key st w k' :
  wf w → k' ≠ key →
  queries (setQueryState key st w).1 !! k' = queries w !! k' ∧
  listeners (setQueryState key st w).1 !! k' = listeners w !! k' ∧
  ∀ l, l ∈ calls w (setQueryState key st w).1 → l ∈ registered key w.
Proof.
  intros Hwf Hne.
  pose proof (setQueryState_fields key st w) as (Hq & _ & _ & Ht & _).
  split_and!.
  - by rewrite Hq, lookup_insert_ne.
  - by apply setQueryState_listeners_other.
  - intros l Hin%(calls_block_in _ _ _ _ _ _ Ht). by apply upto_first_throw_subseteq.
Qed.

Lemma calls_trans w1 w2 w3 evs1 evs2 l :
  trace w2 = trace w1 ++ evs1 → trace w3 = trace w2 ++ evs2 →
  l ∈ calls w1 w3 → l ∈ calls w1 w2 ∨ l ∈ calls w2 w3.
Proof.
  intros H1 H2. unfold calls.
  rewrite (new_events_app w1 w2 evs1 H1), (new_events_app w2 w3 evs2 H2).
  rewrite (new_events_app w1 w3 (evs1 ++ evs2)) by (by rewrite H2, H1, <- app_assoc).
  rewrite omap_app, elem_of_app. tauto.
Qed.

Lemma calls_none w w' l : trace w' = trace w → l ∉ calls w w'.
Proof.
  intros Ht. unfold calls, new_events. rewrite Ht, drop_all. apply not_elem_of_nil.
Qed.

Lemma calls_same_trace w1 w2 w2' l :
  trace w2' = trace w2 → l ∈ calls w1 w2' → l ∈ calls w1 w2.
Proof. unfold calls, new_events. by intros ->. Qed.

Lemma untouched_fetchQuery key fn options now w k' :
  wf w → k' ≠ key → untouched key k' w (fetchQuery key fn options now w).1.
Proof.
  intros Hwf Hne. unfold untouched.
  rewrite fetchQuery_queryFns, lookup_insert_ne by done.
  destruct (fetchQuery_cases key now w) as [[v Hh]|[(q & Hq & Hs)|[Hh Hl]]].
  - rewrite (fetchQuery_hit _ fn options _ _ _ Hh). simpl. split_and!; try done.
    intros l Hin. by apply calls_none in Hin.
  - destruct (fetchQuery_dedup_fields key fn options now w q Hq Hs)
      as (_ & Ht & Hqs & _).
    rewrite Hqs. split_and!; try done.
    + rewrite (fetchQuery_dedup _ fn options now _ _ Hq Hs). cbn [fst].
      rewrite subscribe_listeners. by rewrite decide_False.
    + intros l Hin. by apply calls_none in Hin.
  - rewrite (fetchQuery_fetch _ fn options _ _ Hh Hl). simpl.
    set (st := loadingState _ _).
    destruct (untouched_setQueryState key st (entered key fn w) k'
                (wf_entered key fn w Hwf) Hne) as (Hq & Hls & Hc).
    pose proof (setQueryState_fields key st (entered key fn w)) as (_ & _ & _ & Ht & _).
    change (registered key (entered key fn w)) with (registered key w) in *.
    change (trace (entered key fn w)) with (trace w) in *.
    destruct (setQueryState key st (entered key fn w)) as [w1 [thrown|]]; simpl in *.
    + unfold reject. rewrite settle_queries, settle_listeners. split_and!; try done.
      intros l Hin. apply Hc. eapply calls_same_trace; [|exact Hin].
      apply settle_trace.
    + split_and!; try done. intros l.
      unfold calls at 1. erewrite new_events_app; [|simpl; by rewrite Ht, <- app_assoc].
      cbn. rewrite omap_app, omap_call_of_calls. cbn. rewrite app_nil_r.
      apply upto_first_throw_subseteq.
Qed.

Lemma untouched_catchBlock p fr thrown w k' :
  wf w → k' ≠ f_key fr →
  queries (catchBlock p fr thrown w) !! k' = queries w !! k' ∧
  listeners (catchBlock p fr thrown w) !! k' = listeners w !! k' ∧
  ∀ l, l ∈ calls w (catchBlock p fr thrown w) → l ∈ registered (f_key fr) w.
Proof.
  intros Hwf Hne. unfold catchBlock. set (st := errorState _ _ _).
  destruct (untouched_setQueryState (f_key fr) st w k' Hwf Hne) as (Hq & Hls & Hc).
  destruct (setQueryState (f_key fr) st w) as [w1 [thrown'|]]; simpl in *;
    unfold reject; rewrite settle_queries, settle_listeners;
    (split_and!; try done); intros l Hin; apply Hc;
    (eapply calls_same_trace; [|exact Hin]); apply settle_trace.
Qed.

Lemma untouched_resumeFetch p fr outcome now w k' :
  wf w → awaiting w !! p = Some fr → k' ≠ f_key fr →
  untouched (f_key fr) k' w (resumeFetch p outcome now w).
Proof.
  intros Hwf Hfr Hne. unfold untouched.
  rewrite resumeFetch_queryFns.
  rewrite (resumeFetch_queries_other _ _ _ _ _ _ Hfr) by done.
  pose proof (wf_del_frame p w Hwf) as Hwf0.
  set (w0 := with_awaiting (delete p (awaiting w)) w) in *.
  destruct outcome as [result|thrown].
  - rewrite (resumeFetch_resolves _ _ _ _ _ Hfr). fold w0.
    set (st := successState result now (f_staleTime fr)).
    destruct (untouched_setQueryState (f_key fr) st w0 k' Hwf0 Hne) as (_ & Hls & Hc).
    pose proof (setQueryState_wf (f_key fr) st w0 Hwf0 (state_ok_success _ _ _)) as Hwf1.
    pose proof (setQueryState_fields (f_key fr) st w0) as (_ & _ & _ & Ht & _).
    pose proof (setQueryState_shrinks (f_key fr) st w0 (f_key fr)) as Hsub.
    destruct (setQueryState (f_key fr) st w0) as [w1 [thrown|]]; simpl in *.
    + destruct (untouched_catchBlock p fr thrown w1 k' Hwf1 Hne) as (_ & Hls' & Hc').
      pose proof (catchBlock_fields p fr thrown w1) as (_ & _ & Ht'). simpl in Ht'.
      split_and!; try done.
      * by rewrite Hls', Hls.
      * intros l [Hin|Hin]%(calls_trans w0 w1 _ _ _ _ Ht Ht').
        -- by apply Hc.
        -- by apply Hsub, Hc'.
    + unfold resolve. rewrite settle_listeners. split_and!; try done.
      intros l Hin. apply Hc. eapply calls_same_trace; [|exact Hin]. apply settle_trace.
  - rewrite (resumeFetch_rejects _ _ _ _ _ Hfr). fold w0.
    destruct (untouched_catchBlock p fr thrown w0 k' Hwf0 Hne) as (_ & Hls & Hc).
    split_and!; done.
Qed.

(** X4.  Keys do not interfere.  In every state the client reaches, a call
    of [fetchQuery] or [invalidateQuery] for [key], and the completion of a
    fetch for [key], leave the state, the remembered fetch function and the
    listener set of every other key as they are, and call only listeners
    that were registered for [key]. *)
Theorem operations_on_a_key_leave_other_keys_alone
    (ops : list Op) (key k' : string) :
  let w := run ops newClient in
  k' ≠ key →
  (∀ fn options now, untouched key k' w (fetchQuery key fn options now w).1) ∧
  (∀ now, untouched key k' w (invalidateQuery key now w)) ∧
  (∀ p fr outcome now, awaiting w !! p = Some fr → f_key fr = key →
     untouched key k' w (resumeFetch p outcome now w)).
Proof.
  intros w Hne.
  assert (Hwf : wf w) by (apply reachable_wf; by eexists).
  split_and!.
  - intros fn options now. by apply untouched_fetchQuery.
  - intros now. unfold invalidateQuery.
    destruct (queryFns w !! key) as [fn|] eqn:Ef.
    2: { split_and!; try done. intros l Hin. by apply calls_none in Hin. }
    destruct (queries w !! key) as [q|] eqn:Eq.
    2: { split_and!; try done. intros l Hin. by apply calls_none in Hin. }
    set (w0 := with_queries (delete key (queries w)) w).
    assert (Hwf0 : wf w0).
    { apply wf_with_queries; [done|]. intros k q'. rewrite lookup_delete.
      case_decide; [done|]. by apply wf_state. }
    destruct (untouched_fetchQuery key fn (Some (staleTime q)) now w0 k' Hwf0 Hne)
      as (Hq & Hf & Hl & Hc).
    split_and!; try done.
    rewrite Hq. simpl. by rewrite lookup_delete_ne.
  - intros p fr outcome now Hfr <-. by apply untouched_resumeFetch.
Qed.

Lemma operations_on_a_key_leave_other_keys_alone_witness :
  let ops := [OpFetchQuery "b" 1 None 0; OpSubscribe "b" 1 Returns;
              OpFetchQuery "a" 2 None 1] in
  let w := run ops newClient in
  "b" ≠ "a" ∧ awaiting w !! 1%nat = Some (mkFrame "a" 2 None 0) ∧
  untouched "a" "b" w (resumeFetch 1 (Resolves (JNum 3)) 5 w).
Proof.
  intros ops w.
  assert (Hne : "b" ≠ "a") by discriminate.
  assert (Hfr : awaiting w !! 1%nat = Some (mkFrame "a" 2 None 0))
    by (vm_compute; reflexivity).
  destruct (operations_on_a_key_leave_other_keys_alone ops "a" "b" Hne) as (_ & _ & H).
  split_and!; [exact Hne|exact Hfr|].
  exact (H 1%nat _ (Resolves (JNum 3)) 5%Z Hfr eq_refl).
Defined.

(** ** One fetch in flight when [invalidateQuery] is not used *)

(** X5.  In every run that does not call [invalidateQuery], no two suspended
    calls of [fetchQuery] have the same key, a key with a suspended call has
    status loading, and a further [fetchQuery] for such a key invokes no
    fetch function. *)
Theorem one_fetch_in_flight_without_invalidateQuery (ops : list Op) (key : string) :
  let w := run ops newClient in
  Forall not_invalidate ops →
  (∀ p1 p2 fr1 fr2, awaiting w !! p1 = Some fr1 → awaiting w !! p2 = Some fr2 →
     f_key fr1 = key → f_key fr2 = key → p1 = p2) ∧
  (fetching key w → status <$> queries w !! key = Some Status.loading) ∧
  (∀ fn options now, fetching key w → fetches w (fetchQuery key fn options now w).1 = []).
Proof.
  intros w Hops.
  destruct (single_flight_without_invalidate ops newClient Hops single_flight_newClient)
    as [J1 J2]. fold w in J1, J2.
  assert (Hl : fetching key w → status <$> queries w !! key = Some Status.loading).
  { intros (p & fr & Hfr & <-). by eapply J1. }
  split_and!; [|done|].
  - intros p1 p2 fr1 fr2 H1 H2 E1 E2. eapply J2; [done..|congruence].
  - intros fn options now Hf. specialize (Hl Hf).
    destruct (queries w !! key) as [q|] eqn:Eq; [|done].
    injection Hl as Hs.
    destruct (fetchQuery_dedup_fields key fn options now w q Eq Hs) as (_ & Ht & _).
    unfold fetches, new_events. by rewrite Ht, drop_all.
Qed.

Lemma one_fetch_in_flight_without_invalidateQuery_witness :
  let ops := [OpFetchQuery "a" 1 None 0; OpFetchQuery "a" 2 None 1] in
  let w := run ops newClient in
  Forall not_invalidate ops ∧ fetching "a" w ∧
  fetches w (fetchQuery "a" 3 None 2 w).1 = [].
Proof.
  intros ops w.
  assert (Hops : Forall not_invalidate ops) by (repeat constructor).
  assert (Hf : fetching "a" w).
  { exists 0%nat, (mkFrame "a" 1 None 0). split; [vm_compute|]; reflexivity. }
  destruct (one_fetch_in_flight_without_invalidateQuery ops "a" Hops) as (_ & _ & H).
  split_and!; [exact Hops|exact Hf|exact (H 3%nat None 2%Z Hf)].
Defined.

(** ** What a component sees *)

Lemma reachable_state_ok ops key q :
  queries (run ops newClient) !! key = Some q → state_ok q.
Proof.
  intros Hq. eapply wf_state; [|exact Hq]. apply reachable_wf. by eexists.
Qed.

(** X6.  The object [useQuery] returns, in every state the client reaches:
    at most one of [isLoading], [isError] and [isSuccess] is true; before
    the key has a state all three are false and [data] and [error] are
    undefined; once it has a state exactly one of them is true; with
    [isSuccess] or [isLoading] the [error] is null, and with [isError] it is
    an Error object. *)
Theorem useQuery_flags_are_consistent (ops : list Op) (queryKey : string) :
  let w := run ops newClient in
  let r := useQuery_snapshot queryKey w in
  (UseQuery.isLoading r && UseQuery.isError r = false) ∧
  (UseQuery.isLoading r && UseQuery.isSuccess r = false) ∧
  (UseQuery.isError r && UseQuery.isSuccess r = false) ∧
  (getQueryState queryKey w = None →
     UseQuery.isLoading r || UseQuery.isError r || UseQuery.isSuccess r = false ∧
     UseQuery.data r = JUndefined ∧ UseQuery.error r = JUndefined) ∧
  (is_Some (getQueryState queryKey w) →
     UseQuery.isLoading r || UseQuery.isError r || UseQuery.isSuccess r = true) ∧
  (UseQuery.isSuccess r = true → UseQuery.error r = JNull) ∧
  (UseQuery.isLoading r = true → UseQuery.error r = JNull) ∧
  (UseQuery.isError r = true → ∃ e, UseQuery.error r = JError e).
Proof.
  intros w r. unfold r, useQuery_snapshot, useQuery_result, getQueryState. simpl.
  destruct (queries w !! queryKey) as [q|] eqn:Eq; simpl.
  2: { split_and!; done. }
  destruct (reachable_state_ok ops queryKey q Eq) as (Hs & He & Hl & Hi).
  destruct q as [d st e t s]; simpl in *.
  destruct st; simpl; split_and!; try done; intros _.
  - by rewrite Hl.
  - by rewrite Hs.
  - destruct He as [e' ->]; [done|]. by exists e'.
Qed.

Lemma useQuery_flags_are_consistent_witness :
  let ops := [OpFetchQuery "a" 1 None 0; OpSettle 0 (Rejects (JStr "boom")) 1] in
  let r := useQuery_snapshot "a" (run ops newClient) in
  UseQuery.isError r = true ∧ ∃ e, UseQuery.error r = JError e.
Proof.
  intros ops r.
  assert (H : UseQuery.isError r = true) by (vm_compute; reflexivity).
  destruct (useQuery_flags_are_consistent ops "a") as (_ & _ & _ & _ & _ & _ & _ & He).
  split; [exact H|exact (He H)].
Defined.

(** X7.  Stale data stays visible while a refetch is loading.  When the key
    has a state that is not loading and not fresh, the effect of [useQuery]
    (a [fetchQuery] with the hook's [staleTime], 0 when omitted) rewrites it
    to a loading state that keeps the previous data and lastFetchedAt and
    has no error, whatever the listeners do; a component then sees
    [isLoading] together with the old data.  One edge: previous data that
    is [null] is shown as [undefined] while loading. *)
Theorem refetch_keeps_previous_data_visible
    (queryKey : string) (queryFn : Fn) (staleTime0 : option Z) (now : Z)
    (w : World) (q : QueryState) :
  queries w !! queryKey = Some q →
  status q ≠ Status.loading →
  cacheHit (Some q) now = None →
  let w' := (useQuery_effect queryKey queryFn staleTime0 now w).1 in
  getQueryState queryKey w'
    = Some (mkQueryState (nullish_undefined (data q)) Status.loading None
                         (lastFetchedAt q) (default 0%Z staleTime0)) ∧
  useQuery_snapshot queryKey w'
    = UseQuery.mkResult (nullish_undefined (data q)) true false false JNull ∧
  (data q ≠ JNull → UseQuery.data (useQuery_snapshot queryKey w') = data q).
Proof.
  intros Hq Hs Hh. simpl. unfold useQuery_effect.
  assert (Hh' : cacheHit (queries w !! queryKey) now = None) by by rewrite Hq.
  assert (Hl : status <$> queries w !! queryKey ≠ Some Status.loading).
  { rewrite Hq. simpl. congruence. }
  destruct (fetchQuery_fetch_fields queryKey queryFn (Some (default 0%Z staleTime0)) now w
              Hh' Hl) as (_ & Hqs & _).
  unfold useQuery_snapshot, getQueryState. rewrite Hqs, lookup_insert_eq, Hq.
  unfold loadingState. simpl. rewrite or_zero_id.
  split_and!; [done..|]. intros Hnull. by destruct (data q).
Qed.

Lemma refetch_keeps_previous_data_visible_witness :
  let w := run [OpFetchQuery "a" 1 None 0; OpSettle 0 (Resolves (JNum 5)) 3] newClient in
  let w' := (useQuery_effect "a" 1 None 4 w).1 in
  JNum 5 ≠ JNull ∧
  useQuery_snapshot "a" w' = UseQuery.mkResult (JNum 5) true false false JNull.
Proof.
  intros w w'.
  destruct (refetch_keeps_previous_data_visible "a" 1 None 4 w
              (mkQueryState (JNum 5) Status.success None 3 0)
              eq_refl ltac:(discriminate) eq_refl) as (_ & H & _).
  split; [discriminate|exact H].
Defined.

(** X8.  [refetch] does not keep stale data.  When the key has a state and a
    remembered fetch function and no listener of the key throws,
    [invalidateQuery] leaves a loading state without data, so a component
    sees [isLoading] with [data] undefined, and suspends a call whose
    snapshot of the previous state is empty.  If that fetch then fails, the
    state stored is an error state with [data] undefined and lastFetchedAt
    0: the value cached before the refetch is lost. *)
Theorem refetch_failure_loses_cached_data
    (queryKey : string) (now : Z) (w : World) (q : QueryState) (fn : Fn) :
  queries w !! queryKey = Some q →
  queryFns w !! queryKey = Some fn →
  Forall (λ l, ¬ throwing l) (registered queryKey w) →
  let w1 := refetch queryKey now w in
  let p := length (promises w) in
  let fr := mkFrame queryKey fn None (staleTime q) in
  useQuery_snapshot queryKey w1 = UseQuery.mkResult JUndefined true false false JNull ∧
  awaiting w1 !! p = Some fr ∧
  ∀ w2 thrown now2,
    awaiting w2 !! p = Some fr →
    getQueryState queryKey (resumeFetch p (Rejects thrown) now2 w2)
      = Some (mkQueryState JUndefined Status.error (Some (normalizeError thrown)) 0
                           (staleTime q)).
Proof.
  intros Hq Hf Hall. simpl. unfold refetch, invalidateQuery. rewrite Hf, Hq.
  set (w0 := with_queries (delete queryKey (queries w)) w).
  assert (Hnone : queries w0 !! queryKey = None) by (simpl; apply lookup_delete_eq).
  assert (Hh : cacheHit (queries w0 !! queryKey) now = None) by by rewrite Hnone.
  assert (Hl : status <$> queries w0 !! queryKey ≠ Some Status.loading) by by rewrite Hnone.
  destruct (fetchQuery_fetch_fields queryKey fn (Some (staleTime q)) now w0 Hh Hl)
    as (_ & Hqs & _ & Hrest).
  change (registered queryKey w0) with (registered queryKey w) in Hrest.
  rewrite (proj2 (first_throw_None_Forall _) Hall) in Hrest.
  destruct Hrest as [Ha _]. rewrite Hnone in Hqs, Ha.
  split_and!.
  - unfold useQuery_snapshot, getQueryState. by rewrite Hqs, lookup_insert_eq.
  - rewrite Ha. apply lookup_insert_eq.
  - intros w2 thrown now2 Hfr. unfold getQueryState.
    rewrite (resumeFetch_rejects _ _ _ _ _ Hfr), catchBlock_queries.
    by rewrite lookup_insert_eq.
Qed.

Lemma refetch_failure_loses_cached_data_witness :
  let w := run [OpFetchQuery "a" 1 None 0; OpSettle 0 (Resolves (JNum 5)) 3] newClient in
  let w1 := refetch "a" 4 w in
  Forall (λ l, ¬ throwing l) (registered "a" w) ∧
  getQueryState "a" w = Some (mkQueryState (JNum 5) Status.success None 3 0) ∧
  getQueryState "a" (resumeFetch 1 (Rejects (JStr "boom")) 9 w1)
    = Some (mkQueryState JUndefined Status.error (Some (mkError "boom")) 0 0).
Proof.
  intros w w1.
  assert (Hall : Forall (λ l, ¬ throwing l) (registered "a" w)) by constructor.
  assert (Hq : queries w !! "a" = Some (mkQueryState (JNum 5) Status.success None 3 0))
    by (vm_compute; reflexivity).
  assert (Hf : queryFns w !! "a" = Some 1%nat) by (vm_compute; reflexivity).
  destruct (refetch_failure_loses_cached_data "a" 4 w _ _ Hq Hf Hall) as (_ & Hfr & H).
  split_and!; [exact Hall|exact Hq|exact (H w1 (JStr "boom") 9%Z Hfr)].
Defined.

(** ** The order of events in a run *)

Lemma protocol_app m t1 t2 m1 :
  protocol m t1 = Some m1 → protocol m (t1 ++ t2) = protocol m1 t2.
Proof.
  revert m. induction t1 as [|e t1 IH]; intros m; simpl.
  - by intros [= ->].
  - destruct (protocol_step m e) as [m'|]; [apply IH|done].
Qed.

Lemma protocol_calls key st ls :
  protocol (Delivering key st) (EvCall <$> ls) = Some (Delivering key st).
Proof. induction ls as [|l ls IH]; [done|]. exact IH. Qed.

Lemma protocol_block m key st ls :
  at_rest m →
  protocol m (EvSet key st :: EvNotify key :: (EvCall <$> ls))
  = Some (Delivering key st).
Proof.
  intros Hm. destruct m; try done; simpl; rewrite decide_True by done;
    apply protocol_calls.
Qed.

Lemma protocol_setQueryState m key st w :
  protocol Quiet (trace w) = Some m → at_rest m →
  protocol Quiet (trace (setQueryState key st w).1) = Some (Delivering key st).
Proof.
  intros Hp Hm. pose proof (setQueryState_fields key st w) as (_ & _ & _ & -> & _).
  rewrite (protocol_app _ _ _ _ Hp). by apply protocol_block.
Qed.

Lemma protocol_catchBlock m p fr thrown w :
  protocol Quiet (trace w) = Some m → at_rest m →
  ∃ m', protocol Quiet (trace (catchBlock p fr thrown w)) = Some m' ∧ at_rest m'.
Proof.
  intros Hp Hm. pose proof (catchBlock_fields p fr thrown w) as (_ & _ & Ht).
  cbv zeta in Ht. rewrite Ht, (protocol_app _ _ _ _ Hp).
  rewrite protocol_block by done. by eexists.
Qed.

Lemma protocol_fetchQuery m key fn options now w :
  protocol Quiet (trace w) = Some m → at_rest m →
  ∃ m', protocol Quiet (trace (fetchQuery key fn options now w).1) = Some m' ∧ at_rest m'.
Proof.
  intros Hp Hm.
  destruct (fetchQuery_cases key now w) as [[v Hh]|[(q & Hq & Hs)|[Hh Hl]]].
  - rewrite (fetchQuery_hit _ fn options _ _ _ Hh). simpl. eauto.
  - destruct (fetchQuery_dedup_fields key fn options now w q Hq Hs) as (_ & -> & _). eauto.
  - destruct (fetchQuery_fetch_fields key fn options now w Hh Hl) as (_ & _ & _ & Hrest).
    destruct (first_throw (registered key w)); destruct Hrest as [_ ->];
      rewrite (protocol_app _ _ _ _ Hp).
    + rewrite protocol_block by done. by eexists.
    + rewrite !app_comm_cons.
      rewrite (protocol_app _ _ _ _ (protocol_block m key _ _ Hm)).
      simpl. rewrite decide_True by done. by eexists.
Qed.

Lemma protocol_resumeFetch m p outcome now w :
  protocol Quiet (trace w) = Some m → at_rest m →
  ∃ m', protocol Quiet (trace (resumeFetch p outcome now w)) = Some m' ∧ at_rest m'.
Proof.
  intros Hp Hm. unfold resumeFetch.
  destruct (awaiting w !! p) as [fr|]; [|eauto].
  set (w0 := with_awaiting _ w).
  destruct outcome as [result|thrown]; [|by eapply protocol_catchBlock].
  set (st := successState _ _ _).
  pose proof (protocol_setQueryState m (f_key fr) st w0 Hp Hm) as H1.
  destruct (setQueryState (f_key fr) st w0) as [w1 [thrown|]]; simpl in *.
  - by eapply protocol_catchBlock.
  - unfold resolve. rewrite settle_trace. by eexists.
Qed.

Lemma protocol_run ops : ∀ m w,
  protocol Quiet (trace w) = Some m → at_rest m →
  ∃ m', protocol Quiet (trace (run ops w)) = Some m' ∧ at_rest m'.
Proof.
  induction ops as [|o ops IH]; intros m w Hp Hm; [eauto|]. simpl.
  assert (H : ∃ m', protocol Quiet (trace (run_op w o)) = Some m' ∧ at_rest m').
  { destruct o; simpl.
    - eauto.
    - rewrite unsubscribe_trace. eauto.
    - by eapply protocol_fetchQuery.
    - unfold invalidateQuery.
      destruct (queryFns w !! key) as [fn|]; [|eauto].
      destruct (queries w !! key) as [q|]; [|eauto].
      by eapply (protocol_fetchQuery m).
    - by eapply protocol_resumeFetch. }
  destruct H as (m' & Hp' & Hm'). by eapply IH.
Qed.

(** X9.  The order of events in every run of the client.  Each write of a
    state is followed at once by the notification of its key, and [notify]
    never runs otherwise; listeners are called only during such a
    notification; and a fetch function is invoked only right after the
    notification of a loading state of its own key has completed.  (The
    trace of the run is accepted by the automaton [protocol], which ends in
    a mode where no notification is owed.) *)
Theorem events_follow_the_protocol (ops : list Op) :
  ∃ m, protocol Quiet (trace (run ops newClient)) = Some m ∧ at_rest m.
Proof. by apply (protocol_run ops Quiet newClient). Qed.

(** The automaton rejects a notification without a write, a call outside a
    notification, and a fetch that does not follow a loading write. *)
Example protocol_rejects :
  protocol Quiet [EvNotify "a"] = None ∧
  protocol Quiet [EvCall (Callback 1 Returns)] = None ∧
  protocol Quiet [EvFetch "a" 1] = None ∧
  protocol Quiet [EvSet "a" (successState JNull 0 0); EvNotify "a"; EvFetch "a" 1] = None ∧
  protocol Quiet [EvSet "a" (successState JNull 0 0); EvSet "a" (successState JNull 0 0)] = None.
Proof. vm_compute. split_and!; reflexivity. Qed.

(** ** No caller waits for ever *)

Lemma quiet_unsubscribe key l w :
  quiet (listeners w) → quiet (listeners (unsubscribe key l w)).
Proof.
  intros Hq k ls x. rewrite unsubscribe_listeners.
  case_decide; [|apply Hq].
  destruct (listeners w !! key) as [ls0|] eqn:E; [|done].
  case_decide; [done|]. intros [= <-] [_ Hin]%list_elem_of_filter.
  exact (Hq key ls0 x E Hin).
Qed.

Lemma quiet_subscribe key l w :
  ¬ throwing l → quiet (listeners w) → quiet (listeners (subscribe key l w).1).
Proof.
  intros Hl Hq k ls x. rewrite subscribe_listeners.
  case_decide; [|apply Hq]. intros [= <-] [Hin| ->]%elem_of_set_add; [|done].
  unfold registered in Hin.
  destruct (listeners w !! key) as [ls0|] eqn:E; simpl in Hin.
  - exact (Hq key ls0 x E Hin).
  - by apply not_elem_of_nil in Hin.
Qed.

Lemma quiet_run ops : ∀ w,
  Forall no_thrower ops → quiet (listeners w) → quiet (listeners (run ops w)).
Proof.
  intros w Hops. apply (R_run quiet).
  - intros. by apply quiet_unsubscribe.
  - intros. apply quiet_subscribe; [simpl; tauto|done].
  - eapply Forall_impl; [exact Hops|]. intros o Ho key id body w' -> Hq.
    apply quiet_subscribe; [|done]. destruct body; simpl in *; tauto.
Qed.

Lemma quiet_first_throw key w : quiet (listeners w) → first_throw (registered key w) = None.
Proof.
  intros Hq. apply first_throw_None_Forall, Forall_forall. intros l Hin.
  unfold registered in Hin.
  destruct (listeners w !! key) as [ls|] eqn:E; simpl in Hin.
  - exact (Hq key ls l E Hin).
  - by apply not_elem_of_nil in Hin.
Qed.

Lemma settle_pending_inv p s w p' :
  promises (settle p s w) !! p' = Some Pending → promises w !! p' = Some Pending.
Proof.
  rewrite settle_promises. case_decide as H; [|done].
  destruct H as [-> H]. done.
Qed.

Lemma callListener_pending_inv l w p' :
  promises (callListener l w).1 !! p' = Some Pending → promises w !! p' = Some Pending.
Proof.
  destruct (callListener_promises l w p') as [->|(k & st & _ & Hp & _)]; done.
Qed.

Lemma forEach_pending_inv ls p' : ∀ w,
  promises (forEach ls w).1 !! p' = Some Pending → promises w !! p' = Some Pending.
Proof.
  induction ls as [|l rest IH]; intros w; [done|]. simpl.
  pose proof (callListener_pending_inv l w p') as H1.
  destruct (callListener l w) as [w' [thrown|]]; simpl in *; [done|].
  intros H. by apply H1, IH.
Qed.

Lemma setQueryState_pending_inv key st w p' :
  promises (setQueryState key st w).1 !! p' = Some Pending →
  promises w !! p' = Some Pending.
Proof.
  unfold setQueryState, notify. simpl.
  destruct (listeners w !! key) as [ls|]; [|done].
  by intros ?%forEach_pending_inv.
Qed.

Lemma catchBlock_pending_inv p fr thrown w p' :
  promises (catchBlock p fr thrown w) !! p' = Some Pending →
  promises w !! p' = Some Pending.
Proof.
  unfold catchBlock. set (st := errorState _ _ _).
  pose proof (setQueryState_pending_inv (f_key fr) st w p') as H1.
  destruct (setQueryState (f_key fr) st w) as [w1 [thrown'|]]; simpl in *;
    by intros ?%settle_pending_inv%H1.
Qed.

Lemma resumeFetch_pending_inv p outcome now w p' :
  promises (resumeFetch p outcome now w) !! p' = Some Pending →
  promises w !! p' = Some Pending.
Proof.
  unfold resumeFetch. destruct (awaiting w !! p) as [fr|]; [|done].
  set (w0 := with_awaiting _ w).
  destruct outcome as [result|thrown]; [|by intros ?%catchBlock_pending_inv].
  set (st := successState _ _ _).
  pose proof (setQueryState_pending_inv (f_key fr) st w0 p') as H1.
  destruct (setQueryState (f_key fr) st w0) as [w1 [thrown|]]; simpl in *.
  - by intros ?%catchBlock_pending_inv%H1.
  - by intros ?%settle_pending_inv%H1.
Qed.

Lemma resumeFetch_shrinks p outcome now w key l :
  l ∈ registered key (resumeFetch p outcome now w) → l ∈ registered key w.
Proof.
  unfold resumeFetch. destruct (awaiting w !! p) as [fr|]; [|done].
  set (w0 := with_awaiting _ w).
  destruct outcome as [result|thrown]; [|by intros ?%catchBlock_shrinks].
  set (st := successState _ _ _).
  pose proof (setQueryState_shrinks (f_key fr) st w0 key l) as H1.
  destruct (setQueryState (f_key fr) st w0) as [w1 [thrown|]]; simpl in *.
  - by intros ?%catchBlock_shrinks%H1.
  - unfold resolve. by rewrite settle_registered.
Qed.

(** While the key is loading, its waiters ignore a notification. *)
Lemma forEach_loading ls key st : ∀ w,
  queries w !! key = Some st → status st = Status.loading →
  (∀ k p, DedupWaiter k p ∈ ls → k = key) →
  listeners (forEach ls w).1 = listeners w ∧ promises (forEach ls w).1 = promises w.
Proof.
  induction ls as [|l rest IH]; intros w Hq Hs Hk; [done|]. simpl.
  assert (H1 : listeners (callListener l w).1 = listeners w ∧
               promises (callListener l w).1 = promises w ∧
               queries (callListener l w).1 = queries w).
  { destruct l as [id [|v]|k p]; try done.
    rewrite (Hk k p) by by left.
    rewrite callListener_waiter, Hq. simpl. by rewrite decide_True. }
  destruct H1 as (Hl1 & Hp1 & Hq1).
  destruct (callListener l w) as [w' [thrown|]]; simpl in *; [done|].
  rewrite <- Hl1, <- Hp1. apply IH; [by rewrite Hq1|done|].
  intros k p Hin. apply (Hk k p). by right.
Qed.

Lemma setQueryState_loading key st w :
  wf w → status st = Status.loading →
  listeners (setQueryState key st w).1 = listeners w ∧
  promises (setQueryState key st w).1 = promises w.
Proof.
  intros Hwf Hs. unfold setQueryState, notify. simpl.
  destruct (listeners w !! key) as [ls|] eqn:E; [|done].
  set (w1 := record (EvNotify key) _).
  assert (Hq : queries w1 !! key = Some st) by (simpl; by rewrite lookup_insert_eq).
  assert (Hk : ∀ k p, DedupWaiter k p ∈ ls → k = key).
  { intros k p Hin. eapply (wf_waiter w Hwf key k p). unfold registered. by rewrite E. }
  destruct (forEach_loading ls key st w1 Hq Hs Hk) as [H1 H2]. by split.
Qed.

Lemma all_owned_owned_but key w : all_owned w → owned_but key w.
Proof. intros (Ha & Hb & Hc). split_and!; eauto. Qed.

Lemma fetch_outcome_settled outcome : fetch_outcome outcome ≠ Pending.
Proof. by destruct outcome. Qed.

Lemma all_owned_fetch_path key fn options now w :
  wf w → quiet (listeners w) → owned_but key w →
  cacheHit (queries w !! key) now = None →
  status <$> queries w !! key ≠ Some Status.loading →
  all_owned (fetchQuery key fn options now w).1.
Proof.
  intros Hwf Hquiet (Ha & Hb & Hc) Hh Hl.
  rewrite (fetchQuery_fetch _ fn options _ _ Hh Hl). simpl.
  set (st := loadingState _ _). set (p := length (promises w)).
  pose proof (setQueryState_fields key st (entered key fn w)) as (Hq & _ & Haw & _ & Hx).
  destruct (setQueryState_loading key st (entered key fn w) (wf_entered key fn w Hwf) eq_refl)
    as [Hls Hps].
  change (registered key (entered key fn w)) with (registered key w) in Hx.
  rewrite (quiet_first_throw key w Hquiet) in Hx.
  destruct (setQueryState key st (entered key fn w)) as [w1 [thrown|]]; simpl in *; [done|].
  assert (Hreg : ∀ k, registered k
            (with_awaiting (<[p := mkFrame key fn (queries w !! key) (default 0%Z options)]>
               (awaiting w1)) (record (EvFetch key fn) w1)) = registered k w).
  { intros k. unfold registered. simpl. by rewrite Hls. }
  destruct (wf_fresh_unowned w Hwf) as [Hfresh _]. fold p in Hfresh.
  split_and!; simpl.
  - intros p'. rewrite Hps, Haw. setoid_rewrite Hreg.
    destruct (decide (p' = p)) as [->|Hne]; [rewrite lookup_insert_eq; eauto|].
    rewrite lookup_insert_ne by done.
    intros [H|[H1 H2]]%lookup_app_Some; [by apply Ha|].
    apply list_lookup_singleton_Some in H2 as [H2 _]. unfold p in Hne. lia.
  - intros k p'. rewrite Hreg, Hq. intros Hin.
    destruct (decide (k = key)) as [->|Hne]; [by rewrite lookup_insert_eq|].
    rewrite lookup_insert_ne by done. by eapply Hb.
  - intros k. rewrite Hq.
    destruct (decide (k = key)) as [->|Hne].
    + intros _. exists p, (mkFrame key fn (queries w !! key) (default 0%Z options)).
      simpl. by rewrite Haw, lookup_insert_eq.
    + rewrite lookup_insert_ne by done. intros (p' & fr' & Hfr & Hk)%Hc; [|done].
      exists p', fr'. split; [|done]. simpl. rewrite Haw, lookup_insert_ne; [done|].
      intros <-. congruence.
Qed.

Lemma all_owned_fetchQuery key fn options now w :
  wf w → quiet (listeners w) → all_owned w →
  all_owned (fetchQuery key fn options now w).1.
Proof.
  intros Hwf Hquiet Hown.
  destruct (fetchQuery_cases key now w) as [[v Hh]|[(q & Hq & Hs)|[Hh Hl]]].
  - destruct Hown as (Ha & Hb & Hc).
    rewrite (fetchQuery_hit _ fn options _ _ _ Hh). split_and!; simpl; [|done..].
    intros p' [H|[H1 H2]]%lookup_app_Some; [by apply Ha|].
    by apply list_lookup_singleton_Some in H2 as [_ [=]].
  - destruct Hown as (Ha & Hb & Hc).
    rewrite (fetchQuery_dedup _ fn options now _ _ Hq Hs). cbn [fst].
    set (p := length (promises w)).
    set (w1 := (subscribe key (DedupWaiter key p) (entered key fn w)).1).
    assert (Hps : promises w1 = promises w ++ [Pending]) by done.
    assert (Haw : awaiting w1 = awaiting w) by done.
    assert (Hqs : queries w1 = queries w) by done.
    assert (Hreg : ∀ k l, l ∈ registered k w1 ↔
                     l ∈ registered k w ∨ (k = key ∧ l = DedupWaiter key p)).
    { intros k l. unfold w1. by rewrite registered_subscribe. }
    split_and!.
    + intros p'. rewrite Hps, Haw. intros [H|[H1 H2]]%lookup_app_Some.
      * destruct (Ha p' H) as [?|[k Hin]]; [by left|]. right. exists k.
        apply Hreg. by left.
      * apply list_lookup_singleton_Some in H2 as [H2 _].
        right. exists key. apply Hreg. right. split; [done|].
        f_equal. unfold p. lia.
    + intros k p' [Hin|[-> _]]%Hreg; rewrite Hqs.
      * by eapply Hb.
      * by rewrite Hq, <- Hs.
    + intros k. rewrite Hqs. intros (p' & fr' & Hfr & Hk)%Hc.
      exists p', fr'. by rewrite Haw.
  - apply all_owned_fetch_path; try done. by apply all_owned_owned_but.
Qed.

Lemma all_owned_invalidateQuery key now w :
  wf w → quiet (listeners w) → all_owned w → all_owned (invalidateQuery key now w).
Proof.
  intros Hwf Hquiet Hown. unfold invalidateQuery.
  destruct (queryFns w !! key) as [fn|]; [|done].
  destruct (queries w !! key) as [q|] eqn:Eq; [|done].
  set (w0 := with_queries (delete key (queries w)) w).
  assert (Hnone : queries w0 !! key = None) by (simpl; apply lookup_delete_eq).
  apply all_owned_fetch_path.
  - apply wf_with_queries; [done|]. intros k q'. rewrite lookup_delete.
    case_decide; [done|]. by apply wf_state.
  - done.
  - destruct Hown as (Ha & Hb & Hc). split_and!; simpl.
    + done.
    + intros k p Hne Hin. rewrite lookup_delete_ne by done. by eapply Hb.
    + intros k Hne. rewrite lookup_delete_ne by done. apply Hc.
  - by rewrite Hnone.
  - by rewrite Hnone.
Qed.

Lemma all_owned_resumeFetch p outcome now w :
  wf w → quiet (listeners w) → all_owned w → all_owned (resumeFetch p outcome now w).
Proof.
  intros Hwf Hquiet (Ha & Hb & Hc).
  destruct (awaiting w !! p) as [fr|] eqn:Hfr.
  2: { unfold resumeFetch. by rewrite Hfr. }
  pose proof (quiet_first_throw (f_key fr) w Hquiet) as Hno.
  pose proof (resumeFetch_own_promise p fr outcome now w Hwf Hfr Hno) as Hown.
  assert (Hwait : ∀ p', DedupWaiter (f_key fr) p' ∈ registered (f_key fr) w →
            promises (resumeFetch p outcome now w) !! p' = Some (fetch_outcome outcome) ∧
            DedupWaiter (f_key fr) p' ∉ registered (f_key fr) (resumeFetch p outcome now w)).
  { intros p' Hin. apply resumeFetch_waiter; [done..|].
    by rewrite (first_throw_None _ Hno). }
  destruct (resumeFetch_writes p fr outcome now w Hfr) as (Haw & (st & Hst & _ & Hnl & _) & _).
  assert (Hother : ∀ k, k ≠ f_key fr →
            registered k (resumeFetch p outcome now w) = registered k w).
  { intros k Hk. unfold registered.
    by destruct (untouched_resumeFetch p fr outcome now w k Hwf Hfr Hk) as (_ & _ & -> & _). }
  pose proof (fetch_outcome_settled outcome) as Hsettled.
  split_and!.
  - intros p' Hp'. pose proof (resumeFetch_pending_inv _ _ _ _ _ Hp') as Hp0.
    destruct (Ha p' Hp0) as [Hf|[k Hin]].
    + left. rewrite Haw, lookup_delete_ne; [done|]. intros <-. congruence.
    + destruct (decide (k = f_key fr)) as [->|Hk].
      * destruct (Hwait p' Hin) as [Hp1 _]. congruence.
      * right. exists k. by rewrite Hother.
  - intros k p' Hin. pose proof (resumeFetch_shrinks _ _ _ _ _ _ Hin) as Hin0.
    destruct (decide (k = f_key fr)) as [->|Hk].
    + by destruct (Hwait p' Hin0) as [_ Hn].
    + rewrite (resumeFetch_queries_other _ _ _ _ _ _ Hfr) by done. by eapply Hb.
  - intros k. destruct (decide (k = f_key fr)) as [->|Hk].
    + rewrite Hst. simpl. congruence.
    + rewrite (resumeFetch_queries_other _ _ _ _ _ _ Hfr) by done.
      intros (p' & fr' & Hfr' & Hk')%Hc. exists p', fr'. split; [|done].
      rewrite Haw, lookup_delete_ne; [done|]. intros <-. congruence.
Qed.

Lemma all_owned_run ops : ∀ w,
  Forall no_thrower ops → wf w → quiet (listeners w) → all_owned w →
  wf (run ops w) ∧ quiet (listeners (run ops w)) ∧ all_owned (run ops w).
Proof.
  induction ops as [|o ops IH]; intros w Hops Hwf Hquiet Hown; [by split_and!|].
  inversion Hops as [|? ? Ho Hrest]; subst. simpl.
  apply IH; [done|by apply run_op_wf| |].
  - apply (quiet_run [o]); [by repeat constructor|done].
  - destruct o as [k id b|k id b|k fn options now|k now|p outcome now]; simpl.
    + destruct Hown as (Ha & Hb & Hc). split_and!; [| |exact Hc].
      * intros p Hp. destruct (Ha p Hp) as [?|[k' Hin]]; [by left|].
        right. exists k'. apply registered_subscribe. by left.
      * intros k' p [Hin|[_ [=]]]%registered_subscribe. by eapply Hb.
    + destruct Hown as (Ha & Hb & Hc). split_and!.
      * intros p. rewrite unsubscribe_promises, unsubscribe_awaiting. intros Hp.
        destruct (Ha p Hp) as [?|[k' Hin]]; [by left|].
        right. exists k'. apply registered_unsubscribe. by split.
      * intros k' p [Hin _]%registered_unsubscribe. rewrite unsubscribe_queries.
        by eapply Hb.
      * intros k'. rewrite unsubscribe_queries. intros (p & fr & Hfr & Hk)%Hc.
        exists p, fr. by rewrite unsubscribe_awaiting.
    + by apply all_owned_fetchQuery.
    + by apply all_owned_invalidateQuery.
    + by apply all_owned_resumeFetch.
Qed.

Lemma all_owned_newClient : all_owned newClient.
Proof.
  split_and!; simpl.
  - by intros p [=].
  - intros k p. unfold registered. simpl. rewrite lookup_empty.
    by intros ?%not_elem_of_nil.
  - intros k. by rewrite lookup_empty.
Qed.

(** X10.  No caller waits for ever.  In every run in which no callback that
    throws is subscribed, each promise returned by [fetchQuery] that is
    still pending belongs to a key with a suspended call (its own call, or
    the fetch it joined), and as soon as such a call for that key settles,
    with whatever outcome, the promise settles with the same outcome:
    fulfilled with the value, or rejected with the normalized failure. *)
Theorem pending_promise_settles_with_the_fetch (ops : list Op) (p : nat) :
  let w := run ops newClient in
  Forall no_thrower ops →
  promises w !! p = Some Pending →
  ∃ key, fetching key w ∧
    ∀ p1 fr outcome now,
      awaiting w !! p1 = Some fr → f_key fr = key →
      (is_Some (awaiting w !! p) → p1 = p) →
      promises (resumeFetch p1 outcome now w) !! p = Some (fetch_outcome outcome).
Proof.
  intros w Hops Hp.
  destruct (all_owned_run ops newClient Hops wf_newClient) as (Hwf & Hquiet & Ha & Hb & Hc).
  { intros k ls l. simpl. by rewrite lookup_empty. }
  { apply all_owned_newClient. }
  fold w in Hwf, Hquiet, Ha, Hb, Hc.
  destruct (Ha p Hp) as [[fr Hfr]|[key Hin]].
  - exists (f_key fr). split; [by exists p, fr|].
    intros p1 fr1 outcome now Hfr1 Hk Hsame.
    assert (p1 = p) as -> by (apply Hsame; eauto).
    assert (fr1 = fr) as -> by congruence.
    apply (resumeFetch_own_promise p fr outcome now w Hwf Hfr).
    by apply quiet_first_throw.
  - exists key. split; [by eapply Hc, Hb|].
    intros p1 fr1 outcome now Hfr1 <- _.
    refine (proj1 (resumeFetch_waiter p1 fr1 outcome now w p Hwf Hfr1 _)).
    by rewrite (first_throw_None _ (quiet_first_throw _ _ Hquiet)).
Qed.

Lemma pending_promise_settles_with_the_fetch_witness :
  let ops := [OpSubscribe "a" 1 Returns; OpFetchQuery "a" 1 None 0;
              OpFetchQuery "a" 2 None 1; OpInvalidateQuery "a" 2] in
  let w := run ops newClient in
  Forall no_thrower ops ∧ promises w !! 1%nat = Some Pending ∧
  ∃ key, fetching key w.
Proof.
  intros ops w.
  assert (Hops : Forall no_thrower ops) by (repeat constructor).
  assert (Hp : promises w !! 1%nat = Some Pending) by (vm_compute; reflexivity).
  destruct (pending_promise_settles_with_the_fetch ops 1 Hops Hp) as (key & Hf & _).
  split_and!; [exact Hops|exact Hp|exists key; exact Hf].
Defined.

(** ** No retry *)

Lemma omap_fetch_of_block key st ls :
  omap fetch_of (EvSet key st :: EvNotify key :: (EvCall <$> ls)) = [].
Proof. cbn. apply omap_fetch_of_calls. Qed.

Lemma fetches_app w w' evs : trace w' = trace w ++ evs → fetches w w' = omap fetch_of evs.
Proof. intros Ht. unfold fetches. by rewrite (new_events_app _ _ _ Ht). Qed.

Lemma resumeFetch_fetches p outcome now w : fetches w (resumeFetch p outcome now w) = [].
Proof.
  unfold resumeFetch. destruct (awaiting w !! p) as [fr|].
  2: { unfold fetches, new_events. by rewrite drop_all. }
  set (w0 := with_awaiting _ w).
  assert (Hcatch : ∀ thrown w1 evs, trace w1 = trace w ++ evs → omap fetch_of evs = [] →
            fetches w (catchBlock p fr thrown w1) = []).
  { intros thrown w1 evs Ht Hevs.
    pose proof (catchBlock_fields p fr thrown w1) as (_ & _ & Ht'). cbv zeta in Ht'.
    rewrite Ht, <- app_assoc in Ht'. rewrite (fetches_app _ _ _ Ht'), omap_app, Hevs.
    apply omap_fetch_of_block. }
  destruct outcome as [result|thrown].
  - set (st := successState _ _ _).
    pose proof (setQueryState_fields (f_key fr) st w0) as (_ & _ & _ & Ht & _).
    destruct (setQueryState (f_key fr) st w0) as [w1 [thrown|]]; simpl in *.
    + eapply Hcatch; [exact Ht|apply omap_fetch_of_block].
    + unfold resolve. erewrite fetches_app; [apply omap_fetch_of_block|].
      by rewrite settle_trace, Ht.
  - apply (Hcatch thrown w0 []); [by rewrite app_nil_r|done].
Qed.

(** X11.  The client never retries and never fetches on its own.  The
    completion of a fetch, successful or failed, invokes no fetch function;
    subscribing and unsubscribing invoke none; and one [fetchQuery] call
    invokes at most one fetch function, the one it was passed. *)
Theorem no_retry_and_one_fetch_per_call (w : World) :
  (∀ p outcome now, fetches w (resumeFetch p outcome now w) = []) ∧
  (∀ key l, fetches w (subscribe key l w).1 = [] ∧ fetches w (unsubscribe key l w) = []) ∧
  (∀ key fn options now,
     fetches w (fetchQuery key fn options now w).1 = [] ∨
     fetches w (fetchQuery key fn options now w).1 = [(key, fn)]).
Proof.
  split_and!.
  - intros. apply resumeFetch_fetches.
  - intros key l. unfold fetches, new_events. rewrite unsubscribe_trace. simpl.
    by rewrite drop_all.
  - intros key fn options now.
    destruct (fetchQuery_cases key now w) as [[v Hh]|[(q & Hq & Hs)|[Hh Hl]]].
    + left. rewrite (fetchQuery_hit _ fn options _ _ _ Hh).
      unfold fetches, new_events. simpl. by rewrite drop_all.
    + left. destruct (fetchQuery_dedup_fields key fn options now w q Hq Hs) as (_ & Ht & _).
      unfold fetches, new_events. by rewrite Ht, drop_all.
    + destruct (fetchQuery_fetch_fields key fn options now w Hh Hl) as (_ & _ & _ & Hrest).
      destruct (first_throw (registered key w)); destruct Hrest as [_ Ht].
      * left. rewrite (fetches_app _ _ _ Ht). apply omap_fetch_of_block.
      * right. rewrite (fetches_app _ _ _ Ht). apply omap_fetch_of_fetch_path.
Qed.

(** ** Remembered fetch functions *)

Lemma fns_remembered_fetchQuery key fn options now w :
  fns_remembered w → fns_remembered (fetchQuery key fn options now w).1.
Proof.
  intros [H1 H2].
  assert (Hins : ∀ k, is_Some (queryFns w !! k) → is_Some (<[key := fn]> (queryFns w) !! k)).
  { intros k. rewrite lookup_insert. by case_decide. }
  assert (Hkey : is_Some (<[key := fn]> (queryFns w) !! key)) by by rewrite lookup_insert_eq.
  unfold fns_remembered. rewrite fetchQuery_queryFns.
  destruct (fetchQuery_cases key now w) as [[v Hh]|[(q & Hq & Hs)|[Hh Hl]]].
  - rewrite (fetchQuery_hit _ fn options _ _ _ Hh). simpl. split; eauto.
  - rewrite (fetchQuery_dedup _ fn options now _ _ Hq Hs). simpl. split; eauto.
  - destruct (fetchQuery_fetch_fields key fn options now w Hh Hl) as (_ & Hqs & _ & Hrest).
    rewrite Hqs. split.
    + intros k. rewrite lookup_insert. case_decide; subst; eauto.
    + intros p fr.
      destruct (first_throw (registered key w)); destruct Hrest as [-> _]; [eauto|].
      rewrite lookup_insert. case_decide; [intros [= <-]; done|eauto].
Qed.

Lemma fns_remembered_resumeFetch p outcome now w :
  fns_remembered w → fns_remembered (resumeFetch p outcome now w).
Proof.
  intros [H1 H2].
  destruct (awaiting w !! p) as [fr|] eqn:Hfr.
  2: { unfold resumeFetch. by rewrite Hfr. }
  destruct (resumeFetch_writes p fr outcome now w Hfr) as (Ha & _).
  unfold fns_remembered. rewrite resumeFetch_queryFns, Ha. split.
  - intros k. destruct (decide (k = f_key fr)) as [->|Hk]; [eauto|].
    rewrite (resumeFetch_queries_other _ _ _ _ _ _ Hfr) by done. apply H1.
  - intros p' fr'. rewrite lookup_delete. case_decide; [done|eauto].
Qed.

Lemma fns_remembered_run ops : ∀ w, fns_remembered w → fns_remembered (run ops w).
Proof.
  induction ops as [|o ops IH]; intros w H; [done|]. simpl. apply IH.
  destruct o as [k id b|k id b|k fn options now|k now|p outcome now]; simpl.
  - done.
  - destruct H as [H1 H2]. unfold fns_remembered.
    by rewrite unsubscribe_queries, unsubscribe_queryFns, unsubscribe_awaiting.
  - by apply fns_remembered_fetchQuery.
  - unfold invalidateQuery.
    destruct (queryFns w !! k) as [fn|] eqn:Ef; [|done].
    destruct (queries w !! k) as [q|] eqn:Eq; [|done].
    apply fns_remembered_fetchQuery. destruct H as [H1 H2]. split; [|done].
    intros k'. simpl. rewrite lookup_delete. case_decide; [by intros [? [=]]|apply H1].
  - by apply fns_remembered_resumeFetch.
Qed.

(** X12.  In every state the client reaches, a key that has a state also has
    a remembered fetch function, and so has the key of every suspended
    call.  Hence [invalidateQuery] refetches exactly when the key has a
    state: it changes the client if and only if [getQueryState] is not
    absent. *)
Theorem state_implies_remembered_fetch_function (ops : list Op) (key : string) :
  let w := run ops newClient in
  (is_Some (getQueryState key w) → is_Some (queryFns w !! key)) ∧
  (∀ p fr, awaiting w !! p = Some fr → is_Some (queryFns w !! f_key fr)) ∧
  (∀ now, invalidateQuery key now w ≠ w ↔ is_Some (getQueryState key w)).
Proof.
  intros w.
  destruct (fns_remembered_run ops newClient) as [H1 H2].
  { split; intros *; simpl; rewrite lookup_empty; [by intros [? [=]]|done]. }
  fold w in H1, H2. split_and!; [apply H1|apply H2|].
  intros now. unfold getQueryState. split.
  - intros Hne. destruct (queries w !! key) as [q|] eqn:Eq; [eauto|].
    destruct Hne. unfold invalidateQuery. rewrite Eq. by destruct (queryFns w !! key).
  - intros [q Hq]. destruct (H1 key) as [fn Hf]; [by rewrite Hq|].
    unfold invalidateQuery. rewrite Hf, Hq.
    set (w0 := with_queries (delete key (queries w)) w).
    assert (Hnone : queries w0 !! key = None) by (simpl; apply lookup_delete_eq).
    assert (Hh : cacheHit (queries w0 !! key) now = None) by by rewrite Hnone.
    assert (Hl : status <$> queries w0 !! key ≠ Some Status.loading) by by rewrite Hnone.
    destruct (fetchQuery_fetch_fields key fn (Some (staleTime q)) now w0 Hh Hl)
      as (_ & _ & _ & Hrest).
    intros Heq. rewrite Heq in Hrest.
    change (trace w0) with (trace w) in Hrest.
    destruct (first_throw (registered key w0)); destruct Hrest as [_ Ht];
      apply (f_equal length) in Ht; rewrite length_app in Ht; simpl in Ht; lia.
Qed.

Lemma state_implies_remembered_fetch_function_witness :
  let ops := [OpFetchQuery "a" 1 None 0; OpSettle 0 (Resolves (JNum 5)) 3] in
  let w := run ops newClient in
  is_Some (getQueryState "a" w) ∧ is_Some (queryFns w !! "a") ∧
  invalidateQuery "a" 4 w ≠ w.
Proof.
  intros ops w.
  assert (H : is_Some (getQueryState "a" w)) by (vm_compute; eauto).
  destruct (state_implies_remembered_fetch_function ops "a") as (H1 & _ & H3).
  split_and!; [exact H|exact (H1 H)|exact (proj2 (H3 4%Z) H)].
Defined.

(** ** Numbers as messages *)

(** [String] of a safe integer is its decimal notation, up to the largest
    and the smallest of them. *)
Example String_of_safe_integers :
  String_ (JNum 0) = "0" ∧ String_ (JNum (-12)) = "-12" ∧
  String_ (JNum 9007199254740991) = "9007199254740991" ∧
  String_ (JNum (-9007199254740991)) = "-9007199254740991" ∧
  normalizeError (JNum 404) = mkError "404".
Proof. vm_compute. split_and!; reflexivity. Qed.

(** * The claims that rest on whole runs *)

(** ** C7: the invariant of the stored states, continued *)

Lemma fetchQuery_keeps_success key fn options now w k q :
  queries (fetchQuery key fn options now w).1 !! k = Some q →
  status q = Status.success → queries w !! k = Some q.
Proof.
  destruct (fetchQuery_cases key now w) as [[v Hh]|[(q' & Hq & Hs)|[Hh Hl]]].
  - by rewrite (fetchQuery_hit _ fn options _ _ _ Hh).
  - by destruct (fetchQuery_dedup_fields key fn options now w q' Hq Hs) as (_ & _ & -> & _).
  - destruct (fetchQuery_fetch_fields key fn options now w Hh Hl) as (_ & -> & _).
    rewrite lookup_insert. case_decide; [|done]. by intros [= <-].
Qed.

Lemma resumeFetch_final_state p fr outcome now w :
  awaiting w !! p = Some fr →
  (∃ thrown, queries (resumeFetch p outcome now w) !! f_key fr
     = Some (errorState (f_existingQuery fr) (normalizeError thrown) (f_staleTime fr))) ∨
  (∃ v, outcome = Resolves v ∧
        queries (resumeFetch p outcome now w) !! f_key fr
        = Some (successState v now (f_staleTime fr))).
Proof.
  intros Hfr. set (w0 := with_awaiting (delete p (awaiting w)) w).
  destruct outcome as [result|thrown].
  - rewrite (resumeFetch_resolves _ _ _ _ _ Hfr). fold w0.
    set (st := successState result now (f_staleTime fr)).
    pose proof (setQueryState_queries (f_key fr) st w0) as Hq.
    destruct (setQueryState (f_key fr) st w0) as [w1 [thrown|]]; simpl in *.
    + left. exists thrown. by rewrite catchBlock_queries, lookup_insert_eq.
    + right. exists result. split; [done|].
      unfold resolve. by rewrite settle_queries, Hq, lookup_insert_eq.
  - left. exists thrown. rewrite (resumeFetch_rejects _ _ _ _ _ Hfr).
    by rewrite catchBlock_queries, lookup_insert_eq.
Qed.

(** A success state found after one step was there before it, or the step
    is the completion that wrote it. *)
Lemma run_op_success w o key q :
  queries (run_op w o) !! key = Some q → status q = Status.success →
  queries w !! key = Some q ∨
  ∃ p v now fr, o = OpSettle p (Resolves v) now ∧ awaiting w !! p = Some fr ∧
                f_key fr = key ∧ q = successState v now (f_staleTime fr).
Proof.
  destruct o as [k id b|k id b|k fn options now|k now|p outcome now]; simpl.
  - by left.
  - rewrite unsubscribe_queries. by left.
  - intros H Hs. left. by eapply fetchQuery_keeps_success.
  - intros H Hs. left. unfold invalidateQuery in H.
    destruct (queryFns w !! k) as [fn|]; [|done].
    destruct (queries w !! k) as [q'|]; [|done].
    apply fetchQuery_keeps_success in H; [|done]. simpl in H.
    by apply lookup_delete_Some in H as [_ H].
  - intros H Hs. destruct (awaiting w !! p) as [fr|] eqn:Hfr.
    2: { left. unfold resumeFetch in H. by rewrite Hfr in H. }
    destruct (decide (key = f_key fr)) as [->|Hne].
    2: { left. by rewrite (resumeFetch_queries_other _ _ _ _ _ _ Hfr) in H. }
    destruct (resumeFetch_final_state p fr outcome now w Hfr) as [[thrown E]|(v & -> & E)];
      rewrite E in H; injection H as <-; [done|].
    right. by exists p, v, now, fr.
Qed.

Lemma run_snoc ops o w : run (ops ++ [o]) w = run_op (run ops w) o.
Proof. unfold run. by rewrite fold_left_app. Qed.

Lemma success_written_by ops : ∀ key q,
  queries (run ops newClient) !! key = Some q → status q = Status.success →
  written_by ops key q.
Proof.
  induction ops as [|o ops IH] using rev_ind; intros key q Hq Hs.
  { simpl in Hq. by rewrite lookup_empty in Hq. }
  rewrite run_snoc in Hq.
  destruct (run_op_success _ _ _ _ Hq Hs) as [H|(p & v & now & fr & -> & Hfr & Hk & ->)].
  - destruct (IH key q H Hs) as (ops1 & ops2 & p & v & now & fr & -> & H1 & H2 & H3).
    exists ops1, (ops2 ++ [o]), p, v, now, fr. split_and!; try done.
    by rewrite <- app_assoc.
  - by exists ops, [], p, v, now, fr.
Qed.

(** C7, amended: in every state the client reaches, for every key with an
    entry, status success implies that error is null, status error implies
    that error is present (data may still hold the last successful value),
    and status loading implies that error is null; the status idle is never
    stored.  With status success the data is the value the fetch function
    resolved with: the state was written by the completion of a fetch for
    that key, and holds the value that fetch resolved with, the time of the
    completion and the staleTime of the call.  So the data is present in
    every run in which no fetch function resolves with [undefined]. *)
Theorem stored_state_invariant (ops : list Op) (key : string) (q : QueryState) :
  queries (run ops newClient) !! key = Some q →
  (status q = Status.success →
     error q = None ∧ (Forall resolves_defined ops → data q ≠ JUndefined) ∧
     written_by ops key q) ∧
  (status q = Status.error → is_Some (error q)) ∧
  (status q = Status.loading → error q = None) ∧
  status q ≠ Status.idle.
Proof.
  intros Hq.
  assert (Hwf : wf (run ops newClient)) by (apply reachable_wf; by eexists).
  destruct (wf_state _ Hwf _ _ Hq) as (Hs & He & Hl & Hi).
  split_and!; try done.
  intros Hsucc. split_and!; [by apply Hs| |by apply success_written_by].
  intros Hdef. revert Hsucc.
  apply (all_states_run (λ q, status q = Status.success → data q ≠ JUndefined))
    with (ops := ops) (w := newClient) (key := key); try done.
  eapply Forall_impl; [exact Hdef|].
  intros o Ho p v now s -> _. exact Ho.
Qed.

Lemma stored_state_invariant_witness :
  let ops := [OpFetchQuery "a" 1 None 0; OpSettle 0 (Resolves (JNum 7)) 5] in
  queries (run ops newClient) !! "a" = Some (mkQueryState (JNum 7) Status.success None 5 0) ∧
  Forall resolves_defined ops ∧
  JNum 7 ≠ JUndefined ∧
  written_by ops "a" (mkQueryState (JNum 7) Status.success None 5 0).
Proof.
  intros ops.
  assert (Hdef : Forall resolves_defined ops) by (repeat constructor; discriminate).
  assert (Hq : queries (run ops newClient) !! "a"
               = Some (mkQueryState (JNum 7) Status.success None 5 0)) by reflexivity.
  destruct (stored_state_invariant ops "a" _ Hq) as (H & _).
  destruct (H eq_refl) as (_ & Hdata & Hw).
  split_and!; [exact Hq|exact Hdef|exact (Hdata Hdef)|exact Hw].
Defined.

(** ** C1: the common outcome of the callers that joined *)













(** Why part (3) asks for a state that is not loading, and not only for
    the absence of a fetch in flight: when a listener threw during the
    notification of the loading state, the fetch function was never
    invoked, and the state stays loading after that listener is gone.  No
    call is suspended and no listener is registered, yet two further calls
    invoke nothing and wait for ever. *)
Example loading_without_fetch_in_flight :
  let w := run [OpSubscribe "a" 7 (Throws (JStr "oops")); OpFetchQuery "a" 1 None 0;
                OpUnsubscribe "a" 7 (Throws (JStr "oops"))] newClient in
  let r := fetchMany "a" [(1%nat, None, 1%Z); (2%nat, None, 2%Z)] w in
  awaiting w = ∅ ∧ registered "a" w = [] ∧
  cacheHit (queries w !! "a") 1 = None ∧
  status <$> queries w !! "a" = Some Status.loading ∧
  fetches w r.1 = [] ∧ awaiting r.1 = ∅ ∧
  r.2 = [1; 2]%nat ∧
  promises r.1 = [Rejected (JStr "oops"); Pending; Pending].
Proof. vm_compute. split_and!; reflexivity. Qed.


